(** * buffer-map: content-keyed map and set over byte buffers

    Shallow embedding of [lib/buffer-map.js] (classes [BufferMap],
    [BufferSet], [BufferItem] and the helpers [isArrayBuffer], [toBuffer],
    [encode], [toBinary]) together with the parts of the host environment
    the code relies on: the object heap with ArrayBuffers and their views,
    the insertion-ordered [Map], and [Buffer.prototype.toString('binary')]. *)

From Stdlib Require Import Strings.Byte NArith.
From stdpp Require Import base option list gmap strings numbers.

(** ** Host values and the object heap *)

(** A JavaScript string is a sequence of 16-bit code units. *)
Abbreviation code_unit := N (only parsing).
Abbreviation jsstring := (list code_unit) (only parsing).

Definition addr := nat.

(** Language values. Objects are references into the heap, so that two
    objects with the same contents remain distinguishable. Numbers are
    restricted to integers: the containers never inspect them. *)
Inductive jsval :=
| VUndefined
| VNull
| VBoolean (b : bool)
| VNumber (n : Z)
| VString (s : jsstring)
| VObject (a : addr).

#[global] Instance jsval_eq_dec : EqDecision jsval.
Proof. solve_decision. Defined.

(** The three properties every ArrayBufferView exposes. *)
Record view := mkView { buffer : addr; byteOffset : nat; byteLength : nat }.

(** Heap objects, by class. [OBuffer] is Node's [Buffer] (a [Uint8Array]
    subclass); [OView] is any other typed array or a [DataView]. *)
Inductive object :=
| OArrayBuffer (data : list byte)
| OSharedArrayBuffer (data : list byte)
| OBuffer (v : view)
| OView (v : view)
| OFunction
| OOrdinary.

(** What the code sees of its environment: the objects that exist, and
    whether the global [SharedArrayBuffer] is defined
    ([typeof SharedArrayBuffer === 'function']). *)
Record realm := mkRealm {
  HAS_SHARED_ARRAY_BUFFER : bool;
  objects : gmap addr object
}.

(** ** Completions and the state-and-exception monad *)

Inductive error :=
| TypeError (message : string)
| RangeError (message : string).

Inductive completion (A : Type) :=
| Normal (a : A)
| Throw (e : error).
Arguments Normal {A} a.
Arguments Throw {A} e.

(** A method body runs against the mutable state [S] of its receiver. A
    thrown exception keeps whatever state had been reached when it was
    raised. *)
Definition M (S A : Type) : Type := S -> completion A * S.

Definition ret {S A} (a : A) : M S A := fun s => (Normal a, s).
Definition throw {S A} (e : error) : M S A := fun s => (Throw e, s).
Definition bind {S A B} (m : M S A) (f : A -> M S B) : M S B :=
  fun s => match m s with
           | (Normal a, s') => f a s'
           | (Throw e, s') => (Throw e, s')
           end.
Definition lift {S A} (c : completion A) : M S A := fun s => (c, s).
Definition read {S} : M S S := fun s => (Normal s, s).
Definition write {S} (s' : S) : M S unit := fun _ => (Normal tt, s').

Notation "'let*' x ':=' m 'in' k" := (bind m (fun x => k))
  (at level 10, x pattern, m at level 100, k at level 200).

(** [for (const x of xs) body(x)] over an already materialised sequence. *)
Fixpoint for_of {S A} (xs : list A) (body : A -> M S unit) : M S unit :=
  match xs with
  | [] => ret tt
  | x :: xs' => let* _ := body x in for_of xs' body
  end.

(** ** Buffer.prototype.toString('binary') *)

(** The 'binary' (latin1) decoder: one code unit per byte, carrying the
    byte's numeric value. *)
Definition latin1 (bs : list byte) : jsstring := Byte.to_N <$> bs.

(** ** Helpers *)

Section Helpers.
Variable R : realm.

(** [key.byteLength] of an ArrayBuffer or SharedArrayBuffer. *)
Definition byteLength_of (key : jsval) : option nat :=
  match key with
  | VObject a =>
      match objects R !! a with
      | Some (OArrayBuffer data) | Some (OSharedArrayBuffer data) => Some (length data)
      | _ => None
      end
  | _ => None
  end.

(** The bytes a Buffer reads: its window of the backing store. *)
Definition bytes_of (v : view) : list byte :=
  match objects R !! buffer v with
  | Some (OArrayBuffer data) | Some (OSharedArrayBuffer data) =>
      take (byteLength v) (drop (byteOffset v) data)
  | _ => []
  end.

(** [Buffer.isBuffer(key)], giving the Buffer's window when it holds. *)
Definition as_Buffer (key : jsval) : option view :=
  match key with
  | VObject a => match objects R !! a with Some (OBuffer v) => Some v | _ => None end
  | _ => None
  end.

(** [ArrayBuffer.isView(key)], giving [key.buffer], [key.byteOffset] and
    [key.byteLength] when it holds. A Buffer is a view as well. *)
Definition as_view (key : jsval) : option view :=
  match key with
  | VObject a =>
      match objects R !! a with
      | Some (OBuffer v) | Some (OView v) => Some v
      | _ => None
      end
  | _ => None
  end.

Definition instanceof_ArrayBuffer (key : jsval) : bool :=
  match key with
  | VObject a => match objects R !! a with Some (OArrayBuffer _) => true | _ => false end
  | _ => false
  end.

Definition instanceof_SharedArrayBuffer (key : jsval) : bool :=
  match key with
  | VObject a =>
      match objects R !! a with Some (OSharedArrayBuffer _) => true | _ => false end
  | _ => false
  end.

Definition typeof (x : jsval) : string :=
  match x with
  | VUndefined => "undefined"
  | VNull => "object"
  | VBoolean _ => "boolean"
  | VNumber _ => "number"
  | VString _ => "string"
  | VObject a =>
      match objects R !! a with Some OFunction => "function" | _ => "object" end
  end.

(** [Buffer.from(arrayBuffer, byteOffset, length)]: a fresh Buffer sharing
    the memory of [arrayBuffer], or a RangeError when the window does not
    fit. The fresh object is only ever used for the [toString] that
    follows, so it is represented by its window and not stored. *)
Definition Buffer_from (arrayBuffer : jsval) (off len : nat) : completion view :=
  match arrayBuffer, byteLength_of arrayBuffer with
  | VObject ab, Some n =>
      if decide (n < off) then
        Throw (RangeError "'offset' is outside of buffer bounds")
      else if decide (n - off < len) then
        Throw (RangeError "'length' is outside of buffer bounds")
      else Normal (mkView ab off len)
  | _, _ => Throw (TypeError "The first argument must be an instance of ArrayBuffer.")
  end.

Definition isArrayBuffer (key : jsval) : bool :=
  if instanceof_ArrayBuffer key then true
  else if HAS_SHARED_ARRAY_BUFFER R then
    if instanceof_SharedArrayBuffer key then true else false
  else false.

Definition toBuffer (key : jsval) : completion view :=
  match as_view key with
  | Some v => Buffer_from (VObject (buffer v)) (byteOffset v) (byteLength v)
  | None =>
      if isArrayBuffer key then
        Buffer_from key 0 (default 0 (byteLength_of key))
      else Throw (TypeError "Non-buffer passed to buffer map/set.")
  end.

Inductive BufferEncoding := binary | hex.

Definition hex_digit (n : N) : code_unit :=
  if (n <? 10)%N then (48 + n)%N else (87 + n)%N.

Definition hex_string (bs : list byte) : jsstring :=
  bs ≫= (fun b => [hex_digit (Byte.to_N b / 16); hex_digit (Byte.to_N b mod 16)]).

Definition Buffer_toString (v : view) (encoding : BufferEncoding) : jsstring :=
  match encoding with
  | binary => latin1 (bytes_of v)
  | hex => hex_string (bytes_of v)
  end.

Definition encode (key : jsval) (encoding : BufferEncoding) : completion jsstring :=
  match as_Buffer key with
  | Some v => Normal (Buffer_toString v encoding)
  | None =>
      match toBuffer key with
      | Normal v => Normal (Buffer_toString v encoding)
      | Throw e => Throw e
      end
  end.

Definition toBinary (key : jsval) : completion jsstring := encode key binary.

Definition toHex (key : jsval) : completion jsstring := encode key hex.

End Helpers.

(** ** The host's Map

    ECMAScript's [Map] keeps its entries in insertion order. [set] on a key
    already present replaces the value where the entry stands, [set] on a
    new key appends, [delete] removes the entry. Keys are strings here and
    are compared by their code units. *)

Module Map.

Abbreviation t V := (list (jsstring * V)) (only parsing).

Section Map.
Context {V : Type}.

Definition empty : t V := [].

Fixpoint get (m : t V) (k : jsstring) : option V :=
  match m with
  | [] => None
  | (k', v) :: m' => if decide (k' = k) then Some v else get m' k
  end.

Fixpoint has (m : t V) (k : jsstring) : bool :=
  match m with
  | [] => false
  | (k', _) :: m' => if decide (k' = k) then true else has m' k
  end.

Fixpoint set (m : t V) (k : jsstring) (v : V) : t V :=
  match m with
  | [] => [(k, v)]
  | (k', v') :: m' =>
      if decide (k' = k) then (k', v) :: m' else (k', v') :: set m' k v
  end.

Fixpoint delete (m : t V) (k : jsstring) : bool * t V :=
  match m with
  | [] => (false, [])
  | (k', v') :: m' =>
      if decide (k' = k) then (true, m')
      else let '(found, m'') := delete m' k in (found, (k', v') :: m'')
  end.

Definition clear (m : t V) : t V := [].

Definition size (m : t V) : nat := length m.

Definition values (m : t V) : list V := m.*2.

Definition keys (m : t V) : list jsstring := m.*1.

End Map.
End Map.

(** ** The host's Set

    ECMAScript's [Set] of strings, in insertion order; [add] of a member
    changes nothing. Only what the inspector view of a BufferSet needs. *)

Module HostSet.

Definition empty : list jsstring := [].

Definition add (s : list jsstring) (x : jsstring) : list jsstring :=
  if decide (x ∈ s) then s else s ++ [x].

End HostSet.

(** ** Calling back into user code *)

(** One call [func.call(self, ...args)]. *)
Record invocation := mkInvocation {
  callee : jsval;
  thisArg : jsval;
  args : list jsval
}.

(** The rest of the program as a callback sees it: its own state [U], and
    the record of the calls made so far. Callbacks here do not reach back
    into the container being traversed. *)
Record world (U : Type) := mkWorld { calls : list invocation; user : U }.
Arguments mkWorld {U} calls user.
Arguments calls {U} w.
Arguments user {U} w.

Section Call.
Context {U C : Type}.
(** The behaviour of function objects: a result or an exception, and an
    updated user state. *)
Variable Call : invocation -> U -> completion jsval * U.

Definition Function_call (func self : jsval) (arguments : list jsval)
  : M (C * world U) jsval :=
  fun '(c, w) =>
    let i := mkInvocation func self arguments in
    let '(r, u) := Call i (user w) in
    (r, (c, mkWorld (calls w ++ [i]) u)).
End Call.

(** ** BufferItem *)

Record BufferItem := mkBufferItem { key : jsval; value : jsval }.

(** ** BufferMap *)

Module BufferMap.
Section BufferMap.
Variable R : realm.

Record t := mk { map : Map.t BufferItem }.

Definition size (this : t) : nat := Map.size (map this).

Definition get (key : jsval) : M t jsval :=
  let* k := lift (toBinary R key) in
  let* this := read in
  match Map.get (map this) k with
  | None => ret VUndefined
  | Some item => ret (value item)
  end.

Definition has (key : jsval) : M t bool :=
  let* k := lift (toBinary R key) in
  let* this := read in
  ret (Map.has (map this) k).

(** [set] returns [this]: the receiver in its new state. *)
Definition set (key value : jsval) : M t unit :=
  let* k := lift (toBinary R key) in
  let* this := read in
  write (mk (Map.set (map this) k (mkBufferItem key value))).

Definition delete (key : jsval) : M t bool :=
  let* k := lift (toBinary R key) in
  let* this := read in
  let '(found, m) := Map.delete (map this) k in
  let* _ := write (mk m) in
  ret found.

Definition clear : M t unit :=
  let* this := read in
  write (mk (Map.clear (map this))).

(** [constructor(iterable)]; [None] stands for a null or undefined
    argument, [Some pairs] for an iterable of two-element arrays. *)
Definition constructor (iterable : option (list (jsval * jsval))) : M t unit :=
  let* _ := write (mk Map.empty) in
  match iterable with
  | None => ret tt
  | Some pairs => for_of pairs (fun '(key, value) => set key value)
  end.

(** [new BufferMap(iterable)]: the constructed object, unless the
    constructor threw. *)
Definition new (iterable : option (list (jsval * jsval))) : completion t :=
  match constructor iterable (mk Map.empty) with
  | (Normal _, this) => Normal this
  | (Throw e, _) => Throw e
  end.

(** The generators, as the sequences they yield when run to the end. *)
Definition entries (this : t) : list (jsval * jsval) :=
  (fun item => (key item, value item)) <$> Map.values (map this).

Definition keys (this : t) : list jsval :=
  (fun item => key item) <$> Map.values (map this).

Definition values (this : t) : list jsval :=
  (fun item => value item) <$> Map.values (map this).

Definition iterator (this : t) : list (jsval * jsval) := entries this.

Section forEach.
Context {U : Type}.
Variable Call : invocation -> U -> completion jsval * U.

(** [this_ref] is the reference the method was invoked on. *)
Definition forEach (this_ref : jsval) (func self : jsval) : M (t * world U) unit :=
  if decide (typeof R func = "function") then
    let* s := read in
    for_of (Map.values (map s.1))
      (fun item =>
         let* _ := Function_call Call func self [value item; key item; this_ref] in
         ret tt)
  else throw (TypeError (typeof R func +:+ " is not a function")).
End forEach.

(** [out.push(x)] inside a loop over [xs]. *)
Definition toKeys (this : t) : list jsval :=
  foldl (fun out item => out ++ [key item]) [] (Map.values (map this)).

Definition toValues (this : t) : list jsval :=
  foldl (fun out item => out ++ [value item]) [] (Map.values (map this)).

Definition toArray (this : t) : list jsval := toValues this.

(** [[custom]()]: what the inspector prints, a host Map from the hex
    string of each key to its value. *)
Definition custom (this : t) : completion (Map.t jsval) :=
  match for_of (Map.values (map this))
          (fun item =>
             let* k := lift (toHex R (key item)) in
             let* out := read in
             write (Map.set out k (value item)))
          Map.empty with
  | (Normal _, out) => Normal out
  | (Throw e, _) => Throw e
  end.

End BufferMap.
End BufferMap.

(** ** BufferSet *)

Module BufferSet.
Section BufferSet.
Variable R : realm.

Record t := mk { map : Map.t jsval }.

Definition size (this : t) : nat := Map.size (map this).

Definition has (key : jsval) : M t bool :=
  let* k := lift (toBinary R key) in
  let* this := read in
  ret (Map.has (map this) k).

(** [add] returns [this]: the receiver in its new state. *)
Definition add (key : jsval) : M t unit :=
  let* k := lift (toBinary R key) in
  let* this := read in
  write (mk (Map.set (map this) k key)).

Definition delete (key : jsval) : M t bool :=
  let* k := lift (toBinary R key) in
  let* this := read in
  let '(found, m) := Map.delete (map this) k in
  let* _ := write (mk m) in
  ret found.

Definition clear : M t unit :=
  let* this := read in
  write (mk (Map.clear (map this))).

Definition constructor (iterable : option (list jsval)) : M t unit :=
  let* _ := write (mk Map.empty) in
  match iterable with
  | None => ret tt
  | Some keys => for_of keys (fun key => add key)
  end.

Definition new (iterable : option (list jsval)) : completion t :=
  match constructor iterable (mk Map.empty) with
  | (Normal _, this) => Normal this
  | (Throw e, _) => Throw e
  end.

Definition entries (this : t) : list (jsval * jsval) :=
  (fun key => (key, key)) <$> Map.values (map this).

Definition keys (this : t) : list jsval := Map.values (map this).

Definition values (this : t) : list jsval := Map.values (map this).

Definition iterator (this : t) : list jsval := keys this.

Section forEach.
Context {U : Type}.
Variable Call : invocation -> U -> completion jsval * U.

Definition forEach (this_ref : jsval) (func self : jsval) : M (t * world U) unit :=
  if decide (typeof R func = "function") then
    let* s := read in
    for_of (Map.values (map s.1))
      (fun key =>
         let* _ := Function_call Call func self [key; key; this_ref] in
         ret tt)
  else throw (TypeError (typeof R func +:+ " is not a function")).
End forEach.

Definition toKeys (this : t) : list jsval :=
  foldl (fun out key => out ++ [key]) [] (Map.values (map this)).

Definition toValues (this : t) : list jsval := toKeys this.

Definition toArray (this : t) : list jsval := toKeys this.

(** [[custom]()]: a host Set of the hex strings of the keys. *)
Definition custom (this : t) : completion (list jsstring) :=
  match for_of (Map.values (map this))
          (fun key =>
             let* k := lift (toHex R key) in
             let* out := read in
             write (HostSet.add out k))
          HostSet.empty with
  | (Normal _, out) => Normal out
  | (Throw e, _) => Throw e
  end.

End BufferSet.
End BufferSet.

(** ** The earlier BufferMap of [work/buffer-map2.js]

    This version accepts Buffers only, files the value itself under the
    canonical key, and rebuilds a key on iteration with
    [Buffer.from(key, 'binary')]. *)

Module Legacy.
Section Legacy.
Variable R : realm.

Definition toKey (key : jsval) : completion jsstring :=
  match as_Buffer R key with
  | None => Throw (TypeError "Non-buffer passed to buffer map/set.")
  | Some v => Normal (Buffer_toString R v binary)
  end.

(** [Buffer.from(s, 'binary')]: a new Buffer holding the low eight bits of
    each code unit of [s]. The Buffer is a different object on every
    iteration; it is represented by the bytes it holds. *)
Definition Buffer_from_binary (s : jsstring) : list byte :=
  (fun u => default x00 (Byte.of_N (u mod 256)%N)) <$> s.

Record t := mk { map : Map.t jsval }.

Definition size (this : t) : nat := Map.size (map this).

Definition get (key : jsval) : M t jsval :=
  let* k := lift (toKey key) in
  let* this := read in
  ret (default VUndefined (Map.get (map this) k)).

Definition has (key : jsval) : M t bool :=
  let* k := lift (toKey key) in
  let* this := read in
  ret (Map.has (map this) k).

Definition set (key value : jsval) : M t unit :=
  let* k := lift (toKey key) in
  let* this := read in
  write (mk (Map.set (map this) k value)).

Definition delete (key : jsval) : M t bool :=
  let* k := lift (toKey key) in
  let* this := read in
  let '(found, m) := Map.delete (map this) k in
  let* _ := write (mk m) in
  ret found.

Definition clear : M t unit :=
  let* this := read in
  write (mk (Map.clear (map this))).

Definition entries (this : t) : list (list byte * jsval) :=
  (fun e => (Buffer_from_binary e.1, e.2)) <$> map this.

Definition keys (this : t) : list (list byte) :=
  Buffer_from_binary <$> Map.keys (map this).

Definition values (this : t) : list jsval := Map.values (map this).

End Legacy.
End Legacy.

(** * Specification vocabulary *)

#[global] Instance byte_eq_dec : EqDecision byte := Byte.byte_eq_dec.
#[global] Instance byte_countable : Countable byte :=
  inj_countable Byte.to_N Byte.of_N Byte.of_to_N.

(** [Buffer.from(s, 'binary')]: the inverse of the 'binary' decoder, defined
    on strings whose code units all fit a byte. *)
Definition from_latin1 (s : jsstring) : option (list byte) := mapM Byte.of_N s.

(** The canonical keys of a host Map are those of the byte sequences in
    [X], each once. *)
Definition tracks {V} (m : Map.t V) (X : gset (list byte)) : Prop :=
  Map.keys m ≡ₚ latin1 <$> elements X.

Section Spec.
Variable R : realm.

(** The bytes in [[offset, offset + length)] of a view's backing store. A
    view that does not fit its store is not a view the host can build. *)
Definition window (v : view) : option (list byte) :=
  match objects R !! buffer v with
  | Some (OArrayBuffer data) | Some (OSharedArrayBuffer data) =>
      if decide (byteOffset v + byteLength v ≤ length data)
      then Some (take (byteLength v) (drop (byteOffset v) data))
      else None
  | _ => None
  end.

(** The byte sequence a byte-bearing input denotes; [None] for any other
    value. A SharedArrayBuffer instance exists only in a realm that
    defines [SharedArrayBuffer]. *)
Definition content (key : jsval) : option (list byte) :=
  match key with
  | VObject a =>
      match objects R !! a with
      | Some (OArrayBuffer data) => Some data
      | Some (OSharedArrayBuffer data) =>
          if HAS_SHARED_ARRAY_BUFFER R then Some data else None
      | Some (OBuffer v) | Some (OView v) => window v
      | _ => None
      end
  | _ => None
  end.

(** A Buffer, an ArrayBuffer view, or a (Shared)ArrayBuffer. *)
Definition byte_bearing (key : jsval) : bool :=
  match key with
  | VObject a =>
      match objects R !! a with
      | Some (OArrayBuffer _) | Some (OSharedArrayBuffer _)
      | Some (OBuffer _) | Some (OView _) => true
      | _ => false
      end
  | _ => false
  end.

(** Representation invariant of a BufferMap: canonical keys are pairwise
    distinct and each entry is filed under the canonical key of the key
    object it retains. *)
Definition map_wf (this : BufferMap.t) : Prop :=
  NoDup (Map.keys (BufferMap.map this)) ∧
  Forall (fun e => toBinary R (key e.2) = Normal e.1) (BufferMap.map this).

Definition set_wf (this : BufferSet.t) : Prop :=
  NoDup (Map.keys (BufferSet.map this)) ∧
  Forall (fun e => toBinary R e.2 = Normal e.1) (BufferSet.map this).

(** Mutating operations, for statements about arbitrary histories.
    [Insert key value] is [set(key, value)] on a map and [add(key)] on a
    set. *)
Inductive op :=
| Insert (key value : jsval)
| Delete (key : jsval)
| Clear.

Definition op_byte_bearing (o : op) : Prop :=
  match o with
  | Insert key _ | Delete key => is_Some (content key)
  | Clear => True
  end.

Definition map_step (o : op) : M BufferMap.t unit :=
  match o with
  | Insert key value => BufferMap.set R key value
  | Delete key => let* _ := BufferMap.delete R key in ret tt
  | Clear => BufferMap.clear
  end.

Definition set_step (o : op) : M BufferSet.t unit :=
  match o with
  | Insert key _ => BufferSet.add R key
  | Delete key => let* _ := BufferSet.delete R key in ret tt
  | Clear => BufferSet.clear
  end.

(** The byte contents inserted and not yet deleted, after a history. *)
Definition live_step (X : gset (list byte)) (o : op) : gset (list byte) :=
  match o with
  | Insert key _ => from_option (fun bs => {[bs]} ∪ X) X (content key)
  | Delete key => from_option (fun bs => X ∖ {[bs]}) X (content key)
  | Clear => ∅
  end.

Definition live (ops : list op) : gset (list byte) := foldl live_step ∅ ops.

End Spec.

Section MoreSpec.
Variable R : realm.

(** The bytes [encode] reads from a key, whatever the encoding asked for. *)
Definition key_bytes (key : jsval) : completion (list byte) :=
  match as_Buffer R key with
  | Some v => Normal (bytes_of R v)
  | None =>
      match toBuffer R key with
      | Normal v => Normal (bytes_of R v)
      | Throw e => Throw e
      end
  end.

(** The hex string of the bytes a canonical key stands for. *)
Definition canonical_hex (s : jsstring) : jsstring :=
  hex_string (default [] (from_latin1 s)).

(** A history run against the earlier BufferMap. *)
Definition legacy_step (o : op) : M Legacy.t unit :=
  match o with
  | Insert key value => Legacy.set R key value
  | Delete key => let* _ := Legacy.delete R key in ret tt
  | Clear => Legacy.clear
  end.

(** The keys of a history are Buffers whose window fits. *)
Definition op_Buffer (o : op) : Prop :=
  match o with
  | Insert key _ | Delete key => is_Some (as_Buffer R key) /\ is_Some (content R key)
  | Clear => True
  end.

End MoreSpec.

(** A small realm for concrete runs: a six-byte ArrayBuffer (0) with
    Buffers over its bytes 2..4 (1), its first byte (8), its last byte (9)
    and none of its bytes (10); a separate three-byte ArrayBuffer holding
    02 03 04 (2) and a typed-array view of it (3); a SharedArrayBuffer with
    the same bytes again (4); an empty ArrayBuffer (5); a function (6) and
    plain objects (7, 11, 12). *)
Definition demo_objects : gmap addr object :=
  list_to_map
    [ (0, OArrayBuffer [x00; x01; x02; x03; x04; x05]);
      (1, OBuffer (mkView 0 2 3));
      (2, OArrayBuffer [x02; x03; x04]);
      (3, OView (mkView 2 0 3));
      (4, OSharedArrayBuffer [x02; x03; x04]);
      (5, OArrayBuffer []);
      (6, OFunction);
      (7, OOrdinary);
      (8, OBuffer (mkView 0 0 1));
      (9, OBuffer (mkView 0 5 1));
      (10, OBuffer (mkView 0 6 0));
      (11, OOrdinary);
      (12, OOrdinary) ].

Definition demo : realm := mkRealm true demo_objects.

(** A callback that counts its calls and returns [undefined]. *)
Definition counting (i : invocation) (n : nat) : completion jsval * nat :=
  (Normal VUndefined, S n).

(** * Properties *)

(** ** Concrete runs *)

Example toBinary_Buffer : toBinary demo (VObject 1) = Normal [2; 3; 4]%N.
Proof. reflexivity. Qed.

Example toBinary_view : toBinary demo (VObject 3) = Normal [2; 3; 4]%N.
Proof. reflexivity. Qed.

Example toBinary_ArrayBuffer : toBinary demo (VObject 2) = Normal [2; 3; 4]%N.
Proof. reflexivity. Qed.

Example toBinary_SharedArrayBuffer : toBinary demo (VObject 4) = Normal [2; 3; 4]%N.
Proof. reflexivity. Qed.

Example toBinary_empty : toBinary demo (VObject 10) = Normal [].
Proof. reflexivity. Qed.

Example toBinary_function :
  toBinary demo (VObject 6) = Throw (TypeError "Non-buffer passed to buffer map/set.").
Proof. reflexivity. Qed.

Example toBinary_number :
  toBinary demo (VNumber 7) = Throw (TypeError "Non-buffer passed to buffer map/set.").
Proof. reflexivity. Qed.

Example toHex_Buffer : toHex demo (VObject 1) = Normal [48; 50; 48; 51; 48; 52]%N.
Proof. reflexivity. Qed.

(** Where the global [SharedArrayBuffer] is not defined, the [instanceof]
    test against it is skipped (and no instance of it can exist). *)
Example toBinary_without_shared :
  toBinary (mkRealm false demo_objects) (VObject 4)
  = Throw (TypeError "Non-buffer passed to buffer map/set.") /\
  toBinary (mkRealm false demo_objects) (VObject 3) = Normal [2; 3; 4]%N.
Proof. split; reflexivity. Qed.

(** Scenario 1 of the specification. *)
Example scenario_get_through_copy :
  let m := (BufferMap.set demo (VObject 1) (VNumber 42) (BufferMap.mk Map.empty)).2 in
  (BufferMap.get demo (VObject 2) m).1 = Normal (VNumber 42) /\ BufferMap.size m = 1.
Proof. split; reflexivity. Qed.

(** Scenario 2: the empty sequence, added through two objects. *)
Example scenario_empty_twice :
  let s := (BufferSet.new demo (Some [VObject 5; VObject 10])) in
  s = Normal (BufferSet.mk [([], VObject 10)]).
Proof. reflexivity. Qed.

(** Scenario 3. *)
Example scenario_set_delete_has :
  let m1 := (BufferMap.set demo (VObject 1) (VNumber 1) (BufferMap.mk Map.empty)).2 in
  let m2 := (BufferMap.delete demo (VObject 1) m1).2 in
  BufferMap.delete demo (VObject 1) m1 = (Normal true, m2) /\
  BufferMap.has demo (VObject 1) m2 = (Normal false, m2) /\
  BufferMap.size m2 = 0.
Proof. repeat split; reflexivity. Qed.

(** Scenario 4. *)
Example scenario_constructor_overwrites :
  BufferMap.new demo (Some [(VObject 9, VString [97%N]); (VObject 9, VString [98%N])])
  = Normal (BufferMap.mk [([5%N], mkBufferItem (VObject 9) (VString [98%N]))]).
Proof. reflexivity. Qed.

(** A constructor given a key that is not byte-bearing throws. *)
Example constructor_rejects :
  BufferMap.new demo (Some [(VObject 9, VNull); (VString [], VNull)])
  = Throw (TypeError "Non-buffer passed to buffer map/set.").
Proof. reflexivity. Qed.


(** ** The 'binary' decoder *)

Lemma latin1_length bs : length (latin1 bs) = length bs.
Proof. apply length_fmap. Qed.

Lemma latin1_inj bs1 bs2 : latin1 bs1 = latin1 bs2 -> bs1 = bs2.
Proof.
  revert bs2. induction bs1 as [|b bs1 IH]; intros [|b' bs2] E; try discriminate; auto.
  injection E as Eb Et. f_equal; [|by apply IH].
  pose proof (Byte.of_to_N b) as H1. rewrite Eb, Byte.of_to_N in H1. congruence.
Qed.

Lemma from_latin1_latin1 bs : from_latin1 (latin1 bs) = Some bs.
Proof.
  unfold from_latin1, latin1. apply mapM_Some. induction bs as [|b bs IH]; simpl.
  - constructor.
  - constructor; [apply Byte.of_to_N | exact IH].
Qed.

Lemma latin1_units bs : Forall (fun u => (u < 256)%N) (latin1 bs).
Proof.
  unfold latin1. apply Forall_fmap, Forall_forall. intros b _. simpl.
  pose proof (Byte.to_N_bounded b). lia.
Qed.

(** ** The helpers on byte-bearing and on other keys *)

Section HelperFacts.
Variable R : realm.

Lemma window_bytes_of v bs : window R v = Some bs -> bytes_of R v = bs.
Proof.
  unfold window, bytes_of.
  destruct (objects R !! buffer v) as [[]|]; try discriminate;
    case_decide; congruence.
Qed.

Lemma Buffer_from_window v bs :
  window R v = Some bs ->
  Buffer_from R (VObject (buffer v)) (byteOffset v) (byteLength v) = Normal v.
Proof.
  unfold window, Buffer_from, byteLength_of.
  destruct (objects R !! buffer v) as [[]|]; try discriminate;
    case_decide; try discriminate; intros _;
    repeat (case_decide; [lia|]); by destruct v.
Qed.

Lemma content_byte_bearing key bs : content R key = Some bs -> byte_bearing R key = true.
Proof.
  unfold content, byte_bearing. destruct key; try discriminate.
  by destruct (objects R !! a) as [[]|].
Qed.

(** A byte-bearing key is normalised to the 'binary' string of its bytes. *)
Lemma toBinary_content key bs :
  content R key = Some bs -> toBinary R key = Normal (latin1 bs).
Proof.
  unfold content, toBinary, encode, as_Buffer, toBuffer, as_view, isArrayBuffer,
    instanceof_ArrayBuffer, instanceof_SharedArrayBuffer.
  destruct key as [| | | | |a]; try discriminate.
  destruct (objects R !! a) as [[data|data|v|v| |]|] eqn:Ha; try discriminate; simpl.
  - intros [= <-]. unfold Buffer_from, byteLength_of. rewrite Ha. simpl.
    repeat (case_decide; [lia|]). unfold bytes_of. simpl. rewrite Ha.
    by rewrite drop_0, firstn_all.
  - destruct (HAS_SHARED_ARRAY_BUFFER R); try discriminate.
    intros [= <-]. unfold Buffer_from, byteLength_of. rewrite Ha. simpl.
    repeat (case_decide; [lia|]). unfold bytes_of. simpl. rewrite Ha.
    by rewrite drop_0, firstn_all.
  - intros Hw. by rewrite (window_bytes_of _ _ Hw).
  - intros Hw. pose proof (Buffer_from_window _ _ Hw) as E.
    unfold Buffer_from, byteLength_of in E. rewrite E.
    by rewrite (window_bytes_of _ _ Hw).
Qed.

(** Any other key is rejected. *)
Lemma toBinary_reject key :
  byte_bearing R key = false ->
  toBinary R key = Throw (TypeError "Non-buffer passed to buffer map/set.").
Proof.
  unfold byte_bearing, toBinary, encode, as_Buffer, toBuffer, as_view, isArrayBuffer,
    instanceof_ArrayBuffer, instanceof_SharedArrayBuffer.
  destruct key as [| | | | |a];
    try (intros _; by destruct (HAS_SHARED_ARRAY_BUFFER R)).
  destruct (objects R !! a) as [[]|]; try discriminate; intros _;
    by destruct (HAS_SHARED_ARRAY_BUFFER R).
Qed.

Lemma toBinary_content_inj k1 k2 bs1 bs2 :
  content R k1 = Some bs1 -> content R k2 = Some bs2 ->
  toBinary R k1 = toBinary R k2 <-> bs1 = bs2.
Proof.
  intros H1 H2. rewrite (toBinary_content _ _ H1), (toBinary_content _ _ H2).
  split; [intros [= E]; by apply latin1_inj | by intros ->].
Qed.

End HelperFacts.

(** ** The host's Map *)

Section MapFacts.
Context {V : Type}.
Implicit Types (m : Map.t V) (k : jsstring) (v : V).

Lemma Map_has_elem m k : Map.has m k = true <-> k ∈ Map.keys m.
Proof.
  unfold Map.keys. induction m as [|[k' v'] m IH]; simpl.
  - split; [discriminate | by intros ?%elem_of_nil].
  - case_decide; subst.
    + split; [intros _; left | done].
    + rewrite IH, elem_of_cons. split; [by right | by intros [?|?]].
Qed.

Lemma Map_has_false m k : Map.has m k = false <-> k ∉ Map.keys m.
Proof. rewrite <- Map_has_elem. by destruct (Map.has m k). Qed.

Lemma Map_has_get m k : Map.has m k = true <-> is_Some (Map.get m k).
Proof.
  induction m as [|[k' v'] m IH]; simpl.
  - split; [discriminate | by intros [? ?]].
  - case_decide; [split; eauto | exact IH].
Qed.

(** What the operations do when the key is present. *)
Lemma Map_present m k :
  Map.has m k = true ->
  exists m1 v0 m2,
    m = m1 ++ (k, v0) :: m2 /\ (k ∉ Map.keys m1) /\
    Map.get m k = Some v0 /\
    (forall v, Map.set m k v = m1 ++ (k, v) :: m2) /\
    Map.delete m k = (true, m1 ++ m2).
Proof.
  induction m as [|[k' v'] m IH]; simpl; [discriminate|].
  case_decide; subst.
  - intros _. exists [], v', m. repeat split; auto. unfold Map.keys; simpl.
    apply not_elem_of_nil.
  - intros (m1 & v0 & m2 & -> & Hn & Hg & Hs & Hd)%IH.
    exists ((k', v') :: m1), v0, m2. repeat split; auto.
    + unfold Map.keys in *; simpl. rewrite elem_of_cons. by intros [?|?].
    + intros v. simpl. by rewrite Hs.
    + by rewrite Hd.
Qed.

(** ... and when it is absent. *)
Lemma Map_absent m k :
  Map.has m k = false ->
  Map.get m k = None /\
  (forall v, Map.set m k v = m ++ [(k, v)]) /\
  Map.delete m k = (false, m).
Proof.
  induction m as [|[k' v'] m IH]; simpl; [done|].
  case_decide; [discriminate|].
  intros (Hg & Hs & Hd)%IH. repeat split; auto.
  - intros v. by rewrite Hs.
  - by rewrite Hd.
Qed.

Lemma Map_get_set m k v : Map.get (Map.set m k v) k = Some v.
Proof.
  induction m as [|[k' v'] m IH]; simpl.
  - by rewrite decide_True.
  - case_decide; simpl; [by rewrite decide_True | by rewrite decide_False].
Qed.

Lemma Map_get_set_ne m k k' v : k ≠ k' -> Map.get (Map.set m k v) k' = Map.get m k'.
Proof.
  intros Hne. induction m as [|[k0 v0] m IH]; simpl.
  - by rewrite decide_False.
  - case_decide; simpl; subst.
    + by rewrite !decide_False.
    + case_decide; auto.
Qed.

Lemma Map_has_set m k v : Map.has (Map.set m k v) k = true.
Proof. apply Map_has_get. rewrite Map_get_set. eauto. Qed.

Lemma Map_has_set_ne m k k' v : k ≠ k' -> Map.has (Map.set m k v) k' = Map.has m k'.
Proof.
  intros Hne. induction m as [|[k0 v0] m IH]; simpl.
  - by rewrite decide_False.
  - case_decide; simpl; subst.
    + by rewrite !decide_False.
    + case_decide; auto.
Qed.

Lemma Map_keys_app m1 m2 : Map.keys (m1 ++ m2) = Map.keys m1 ++ Map.keys m2.
Proof. apply fmap_app. Qed.

Lemma Map_get_delete_ne m k k' : k ≠ k' -> Map.get (Map.delete m k).2 k' = Map.get m k'.
Proof.
  intros Hne. induction m as [|[k0 v0] m IH]; simpl; [done|].
  case_decide; subst; simpl.
  - by rewrite decide_False.
  - destruct (Map.delete m k) as [found m'] eqn:E. simpl in *.
    case_decide; auto.
Qed.

Lemma Map_has_delete_ne m k k' : k ≠ k' -> Map.has (Map.delete m k).2 k' = Map.has m k'.
Proof.
  intros Hne. induction m as [|[k0 v0] m IH]; simpl; [done|].
  case_decide; subst; simpl.
  - by rewrite decide_False.
  - destruct (Map.delete m k) as [found m'] eqn:E. simpl in *.
    case_decide; auto.
Qed.

(** With distinct keys, an entry is found under its key. *)
Lemma Map_get_elem m k v : NoDup (Map.keys m) -> (k, v) ∈ m -> Map.get m k = Some v.
Proof.
  unfold Map.keys. induction m as [|[k0 v0] m IH]; simpl.
  - by intros _ ?%elem_of_nil.
  - intros [Hn Hd]%list.NoDup_cons [[= -> ->]|Hin]%elem_of_cons.
    + by rewrite decide_True.
    + case_decide; subst; [|by apply IH].
      exfalso. apply Hn. apply list_elem_of_fmap. by exists (k, v).
Qed.

Lemma Map_get_Some_elem m k v : Map.get m k = Some v -> (k, v) ∈ m.
Proof.
  induction m as [|[k0 v0] m IH]; simpl; [done|].
  case_decide; subst.
  - intros [= ->]. left.
  - intros ?%IH. by right.
Qed.

(** With distinct keys, [set] on the key of the entry at position [i]
    rewrites that position and nothing else. *)
Lemma Map_set_at m i k v0 v :
  NoDup (Map.keys m) -> m !! i = Some (k, v0) -> Map.set m k v = <[i := (k, v)]> m.
Proof.
  unfold Map.keys. revert i. induction m as [|[k0 v1] m IH]; intros i; simpl; [done|].
  intros [Hn Hd]%list.NoDup_cons. destruct i as [|i]; simpl.
  - intros [= -> ->]. by rewrite decide_True.
  - intros Hi. case_decide; subst.
    + exfalso. apply Hn. apply list_elem_of_fmap. exists (k, v0).
      split; [done|]. by apply list_elem_of_lookup_2 in Hi.
    + f_equal. by apply IH.
Qed.

Lemma Map_set_NoDup m k v : NoDup (Map.keys m) -> NoDup (Map.keys (Map.set m k v)).
Proof.
  intros Hd. destruct (Map.has m k) eqn:E.
  - apply Map_present in E as (m1 & v0 & m2 & -> & _ & _ & -> & _).
    unfold Map.keys in *. by rewrite fmap_app in *.
  - pose proof E as (_ & -> & _)%Map_absent. apply Map_has_false in E.
    unfold Map.keys in *. rewrite fmap_app. simpl.
    apply list.NoDup_app. split; [done|]. split; [|apply NoDup_singleton].
    intros x Hx ->%list_elem_of_singleton. done.
Qed.

Lemma Map_set_Forall (P : jsstring * V -> Prop) m k v :
  Forall P m -> P (k, v) -> Forall P (Map.set m k v).
Proof.
  intros Hm Hp. induction Hm as [|[k0 v0] m H0 Hm IH]; simpl.
  - by constructor.
  - case_decide; subst; constructor; auto.
Qed.

Lemma Map_delete_NoDup m k : NoDup (Map.keys m) -> NoDup (Map.keys (Map.delete m k).2).
Proof.
  intros Hd. destruct (Map.has m k) eqn:E.
  - apply Map_present in E as (m1 & v0 & m2 & -> & _ & _ & _ & ->). simpl.
    unfold Map.keys in *. rewrite fmap_app in *. simpl in Hd.
    apply list.NoDup_app in Hd as (H1 & H2 & [_ H3]%list.NoDup_cons).
    apply list.NoDup_app. repeat split; auto.
    intros x Hx Hx'. apply (H2 x Hx). by right.
  - by apply Map_absent in E as (_ & _ & ->).
Qed.

Lemma Map_delete_Forall (P : jsstring * V -> Prop) m k :
  Forall P m -> Forall P (Map.delete m k).2.
Proof.
  intros Hm. induction Hm as [|[k0 v0] m H0 Hm IH]; simpl; [done|].
  case_decide; subst; simpl; [done|].
  destruct (Map.delete m k) as [found m']. simpl in *. by constructor.
Qed.

Lemma Map_delete_gone m k : NoDup (Map.keys m) -> Map.has (Map.delete m k).2 k = false.
Proof.
  intros Hd. apply Map_has_false. destruct (Map.has m k) eqn:E.
  - apply Map_present in E as (m1 & v0 & m2 & -> & Hn & _ & _ & ->). simpl.
    unfold Map.keys in *. rewrite fmap_app in *. simpl in Hd.
    apply list.NoDup_app in Hd as (_ & _ & [Hk _]%list.NoDup_cons).
    rewrite elem_of_app. by intros [?|?].
  - pose proof E as (_ & _ & ->)%Map_absent. by apply Map_has_false.
Qed.

End MapFacts.

(** ** Running the methods *)

Section Runs.
Variable R : realm.

Lemma map_get_run key s this :
  toBinary R key = Normal s ->
  BufferMap.get R key this =
    (Normal (from_option value VUndefined (Map.get (BufferMap.map this) s)), this).
Proof.
  intros E. unfold BufferMap.get, bind, lift, read. rewrite E.
  by destruct (Map.get _ _).
Qed.

Lemma map_has_run key s this :
  toBinary R key = Normal s ->
  BufferMap.has R key this = (Normal (Map.has (BufferMap.map this) s), this).
Proof. intros E. unfold BufferMap.has, bind, lift, read. by rewrite E. Qed.

Lemma map_set_run key v s this :
  toBinary R key = Normal s ->
  BufferMap.set R key v this =
    (Normal tt, BufferMap.mk (Map.set (BufferMap.map this) s (mkBufferItem key v))).
Proof. intros E. unfold BufferMap.set, bind, lift, read. by rewrite E. Qed.

Lemma map_delete_run key s this :
  toBinary R key = Normal s ->
  BufferMap.delete R key this =
    (Normal (Map.delete (BufferMap.map this) s).1,
     BufferMap.mk (Map.delete (BufferMap.map this) s).2).
Proof.
  intros E. unfold BufferMap.delete, bind, lift, read. rewrite E.
  by destruct (Map.delete _ _).
Qed.

Lemma set_has_run key s this :
  toBinary R key = Normal s ->
  BufferSet.has R key this = (Normal (Map.has (BufferSet.map this) s), this).
Proof. intros E. unfold BufferSet.has, bind, lift, read. by rewrite E. Qed.

Lemma set_add_run key s this :
  toBinary R key = Normal s ->
  BufferSet.add R key this =
    (Normal tt, BufferSet.mk (Map.set (BufferSet.map this) s key)).
Proof. intros E. unfold BufferSet.add, bind, lift, read. by rewrite E. Qed.

Lemma set_delete_run key s this :
  toBinary R key = Normal s ->
  BufferSet.delete R key this =
    (Normal (Map.delete (BufferSet.map this) s).1,
     BufferSet.mk (Map.delete (BufferSet.map this) s).2).
Proof.
  intros E. unfold BufferSet.delete, bind, lift, read. rewrite E.
  by destruct (Map.delete _ _).
Qed.

End Runs.

(** ** Content equality *)

(** C1. Two byte-bearing inputs with the same bytes, whatever their
    allocation, viewing offset or class, name the same entry: after
    [map.set(a, v)], [map.get(b)] returns [v] and [map.has(b)] returns
    true. *)
Theorem content_equality R (this : BufferMap.t) (a b v : jsval) (bs : list byte) :
  content R a = Some bs ->
  content R b = Some bs ->
  (BufferMap.set R a v this).1 = Normal tt /\
  let this' := (BufferMap.set R a v this).2 in
  BufferMap.get R b this' = (Normal v, this') /\
  BufferMap.has R b this' = (Normal true, this').
Proof.
  intros Ha%toBinary_content Hb%toBinary_content.
  rewrite (map_set_run _ _ _ _ _ Ha). simpl. split; [done|].
  rewrite (map_get_run _ _ _ _ Hb), (map_has_run _ _ _ _ Hb). simpl.
  by rewrite Map_get_set, Map_has_set.
Qed.

(** A Buffer at offset 2 of a larger allocation and a SharedArrayBuffer
    holding the same three bytes. *)
Lemma content_equality_witness :
  let this := BufferMap.mk Map.empty in
  let this' := (BufferMap.set demo (VObject 1) (VNumber 42) this).2 in
  BufferMap.get demo (VObject 4) this' = (Normal (VNumber 42), this') /\
  BufferMap.has demo (VObject 4) this' = (Normal true, this').
Proof.
  exact (proj2 (content_equality demo (BufferMap.mk Map.empty)
                  (VObject 1) (VObject 4) (VNumber 42) [x02; x03; x04]
                  eq_refl eq_refl)).
Defined.

(** ** Rejected keys *)

Section Reject.
Variable R : realm.

Lemma map_reject {A} (body : jsstring -> M BufferMap.t A) key e this :
  toBinary R key = Throw e ->
  (let* k := lift (toBinary R key) in body k) this = (Throw e, this).
Proof. intros E. unfold bind, lift. by rewrite E. Qed.

Lemma set_reject {A} (body : jsstring -> M BufferSet.t A) key e this :
  toBinary R key = Throw e ->
  (let* k := lift (toBinary R key) in body k) this = (Throw e, this).
Proof. intros E. unfold bind, lift. by rewrite E. Qed.
End Reject.

(** C2. A key that is not byte-bearing makes [get], [has], [set] and
    [delete] of a BufferMap and [has], [add] and [delete] of a BufferSet
    throw a TypeError, and the container is left exactly as it was. *)
Theorem invalid_key_rejected R (key v : jsval) (m : BufferMap.t) (s : BufferSet.t) :
  byte_bearing R key = false ->
  let e := TypeError "Non-buffer passed to buffer map/set." in
  BufferMap.get R key m = (Throw e, m) /\
  BufferMap.has R key m = (Throw e, m) /\
  BufferMap.set R key v m = (Throw e, m) /\
  BufferMap.delete R key m = (Throw e, m) /\
  BufferSet.has R key s = (Throw e, s) /\
  BufferSet.add R key s = (Throw e, s) /\
  BufferSet.delete R key s = (Throw e, s).
Proof.
  intros E%toBinary_reject. simpl.
  repeat split; first [by apply map_reject | by apply set_reject].
Qed.

(** A string key, and a plain object, against a map and a set that each
    hold one entry. *)
Lemma invalid_key_rejected_witness :
  let m := (BufferMap.set demo (VObject 1) (VNumber 1) (BufferMap.mk Map.empty)).2 in
  let s := (BufferSet.add demo (VObject 1) (BufferSet.mk Map.empty)).2 in
  let e := TypeError "Non-buffer passed to buffer map/set." in
  (BufferMap.set demo (VString [104%N; 105%N]) VNull m = (Throw e, m) /\
   BufferSet.add demo (VString [104%N; 105%N]) s = (Throw e, s)) /\
  (BufferMap.delete demo (VObject 7) m = (Throw e, m) /\
   BufferSet.delete demo (VObject 7) s = (Throw e, s)).
Proof.
  pose proof (invalid_key_rejected demo (VString [104%N; 105%N]) VNull
    (BufferMap.set demo (VObject 1) (VNumber 1) (BufferMap.mk Map.empty)).2
    (BufferSet.add demo (VObject 1) (BufferSet.mk Map.empty)).2 eq_refl) as H1.
  pose proof (invalid_key_rejected demo (VObject 7) VNull
    (BufferMap.set demo (VObject 1) (VNumber 1) (BufferMap.mk Map.empty)).2
    (BufferSet.add demo (VObject 1) (BufferSet.mk Map.empty)).2 eq_refl) as H2.
  simpl in H1, H2. simpl. split; split; tauto.
Defined.

(** ** The normaliser *)

(** C3. The canonical key of a byte sequence has one code unit per byte,
    each the byte's own value and so reversible. Hence two byte-bearing
    inputs have equal canonical keys exactly when their byte sequences
    coincide; inputs with different bytes occupy independent entries; and
    the empty sequence is a legal key, whose canonical key (the empty
    string) no other sequence shares. *)
Theorem normaliser_bijective R (k1 k2 : jsval) (bs1 bs2 : list byte) :
  content R k1 = Some bs1 ->
  content R k2 = Some bs2 ->
  toBinary R k1 = Normal (latin1 bs1) /\
  length (latin1 bs1) = length bs1 /\
  (forall i b, bs1 !! i = Some b ->
     latin1 bs1 !! i = Some (Byte.to_N b) /\
     (Byte.to_N b < 256)%N /\
     Byte.of_N (Byte.to_N b) = Some b) /\
  from_latin1 (latin1 bs1) = Some bs1 /\
  (toBinary R k1 = toBinary R k2 <-> bs1 = bs2) /\
  (toBinary R k1 = Normal [] <-> bs1 = []) /\
  (bs1 ≠ bs2 -> forall (this : BufferMap.t) (v1 v2 : jsval),
     let this1 := (BufferMap.set R k1 v1 this).2 in
     let this2 := (BufferMap.set R k2 v2 this1).2 in
     (BufferMap.get R k2 this1).1 = (BufferMap.get R k2 this).1 /\
     (BufferMap.has R k2 this1).1 = (BufferMap.has R k2 this).1 /\
     (BufferMap.get R k1 this2).1 = Normal v1 /\
     (BufferMap.get R k2 this2).1 = Normal v2).
Proof.
  intros H1 H2.
  pose proof (toBinary_content _ _ _ H1) as E1.
  pose proof (toBinary_content _ _ _ H2) as E2.
  split; [done|]. split; [apply latin1_length|].
  split.
  { intros i b Hi. split; [|split; [|apply Byte.of_to_N]].
    - unfold latin1. by rewrite list_lookup_fmap, Hi.
    - pose proof (Byte.to_N_bounded b). lia. }
  split; [apply from_latin1_latin1|].
  split; [by apply toBinary_content_inj|].
  split.
  { rewrite E1. split.
    - intros [= E]. by destruct bs1.
    - by intros ->. }
  intros Hne this v1 v2.
  assert (latin1 bs1 ≠ latin1 bs2) as Hs by (by intros ?%latin1_inj).
  rewrite (map_set_run _ _ _ _ _ E1). simpl.
  rewrite (map_set_run _ _ _ _ _ E2). simpl.
  rewrite !(map_get_run _ _ _ _ E2), !(map_has_run _ _ _ _ E2).
  rewrite (map_get_run _ _ _ _ E1). simpl.
  rewrite Map_get_set, (Map_get_set_ne _ (latin1 bs2) (latin1 bs1)) by done.
  by rewrite Map_get_set, Map_get_set_ne, Map_has_set_ne.
Qed.

(** The Buffer over bytes 2..4 against the empty ArrayBuffer. *)
Lemma normaliser_bijective_witness :
  toBinary demo (VObject 1) = Normal [2%N; 3%N; 4%N] /\
  (toBinary demo (VObject 1) = toBinary demo (VObject 5) <-> [x02; x03; x04] = []).
Proof.
  pose proof (normaliser_bijective demo (VObject 1) (VObject 5) [x02; x03; x04] []
                eq_refl eq_refl) as (H1 & _ & _ & _ & H2 & _).
  split; [exact H1 | exact H2].
Defined.

(** ** The absent sentinel *)

(** C10. [get] answers [undefined] both for a key stored with the value
    [undefined] and for a key that is absent, although [has] tells the two
    apart: after [set(k, undefined)], [get(k)] is [undefined] and [has(k)]
    is true; and whenever [has(k)] is false, [get(k)] is [undefined] too. *)
Theorem undefined_is_ambiguous R (this : BufferMap.t) (k : jsval) (bs : list byte) :
  content R k = Some bs ->
  (let this' := (BufferMap.set R k VUndefined this).2 in
   (BufferMap.set R k VUndefined this).1 = Normal tt /\
   BufferMap.get R k this' = (Normal VUndefined, this') /\
   BufferMap.has R k this' = (Normal true, this')) /\
  (BufferMap.has R k this = (Normal false, this) ->
   BufferMap.get R k this = (Normal VUndefined, this)).
Proof.
  intros E%toBinary_content. split.
  - rewrite (map_set_run _ _ _ _ _ E). simpl.
    rewrite (map_get_run _ _ _ _ E), (map_has_run _ _ _ _ E). simpl.
    by rewrite Map_get_set, Map_has_set.
  - rewrite (map_get_run _ _ _ _ E), (map_has_run _ _ _ _ E).
    intros [= Hh]. apply Map_absent in Hh as (-> & _). done.
Qed.

Lemma undefined_is_ambiguous_witness :
  let empty := BufferMap.mk Map.empty in
  let stored := (BufferMap.set demo (VObject 2) VUndefined empty).2 in
  BufferMap.get demo (VObject 2) stored = (Normal VUndefined, stored) /\
  BufferMap.has demo (VObject 2) stored = (Normal true, stored) /\
  BufferMap.get demo (VObject 2) empty = (Normal VUndefined, empty).
Proof.
  pose proof (undefined_is_ambiguous demo (BufferMap.mk Map.empty) (VObject 2)
                [x02; x03; x04] eq_refl) as [(_ & Hg & Hh) Ha].
  split; [exact Hg|]. split; [exact Hh|]. apply Ha. reflexivity.
Defined.

(** ** The representation invariant *)

Section Invariant.
Variable R : realm.

Lemma map_wf_empty : map_wf R (BufferMap.mk Map.empty).
Proof. split; simpl; constructor. Qed.

Lemma map_wf_set this key v :
  map_wf R this -> map_wf R (BufferMap.set R key v this).2.
Proof.
  intros [Hd Hf]. destruct (toBinary R key) as [s|e] eqn:E.
  - rewrite (map_set_run _ _ _ _ _ E). simpl. split; simpl.
    + by apply Map_set_NoDup.
    + by apply Map_set_Forall.
  - unfold BufferMap.set. by rewrite (map_reject _ _ _ _ _ E).
Qed.

Lemma map_wf_delete this key :
  map_wf R this -> map_wf R (BufferMap.delete R key this).2.
Proof.
  intros [Hd Hf]. destruct (toBinary R key) as [s|e] eqn:E.
  - rewrite (map_delete_run _ _ _ _ E). simpl. split; simpl.
    + by apply Map_delete_NoDup.
    + by apply Map_delete_Forall.
  - unfold BufferMap.delete. by rewrite (map_reject _ _ _ _ _ E).
Qed.

Lemma map_wf_clear this : map_wf R (BufferMap.clear this).2.
Proof. apply map_wf_empty. Qed.

Lemma set_wf_empty : set_wf R (BufferSet.mk Map.empty).
Proof. split; simpl; constructor. Qed.

Lemma set_wf_add this key :
  set_wf R this -> set_wf R (BufferSet.add R key this).2.
Proof.
  intros [Hd Hf]. destruct (toBinary R key) as [s|e] eqn:E.
  - rewrite (set_add_run _ _ _ _ E). simpl. split; simpl.
    + by apply Map_set_NoDup.
    + by apply Map_set_Forall.
  - unfold BufferSet.add. by rewrite (set_reject _ _ _ _ _ E).
Qed.

Lemma set_wf_delete this key :
  set_wf R this -> set_wf R (BufferSet.delete R key this).2.
Proof.
  intros [Hd Hf]. destruct (toBinary R key) as [s|e] eqn:E.
  - rewrite (set_delete_run _ _ _ _ E). simpl. split; simpl.
    + by apply Map_delete_NoDup.
    + by apply Map_delete_Forall.
  - unfold BufferSet.delete. by rewrite (set_reject _ _ _ _ _ E).
Qed.

Lemma set_wf_clear this : set_wf R (BufferSet.clear this).2.
Proof. apply set_wf_empty. Qed.

(** Every state a history of operations reaches satisfies the invariant,
    whether or not some of the operations threw. *)
Lemma map_wf_step this o : map_wf R this -> map_wf R (map_step R o this).2.
Proof.
  intros Hw. destruct o as [k v|k|]; simpl.
  - by apply map_wf_set.
  - pose proof (map_wf_delete this k Hw) as Hd. unfold bind, ret.
    by destruct (BufferMap.delete R k this) as [[?|?] ?].
  - apply map_wf_clear.
Qed.

Lemma set_wf_step this o : set_wf R this -> set_wf R (set_step R o this).2.
Proof.
  intros Hw. destruct o as [k v|k|]; simpl.
  - by apply set_wf_add.
  - pose proof (set_wf_delete this k Hw) as Hd. unfold bind, ret.
    by destruct (BufferSet.delete R k this) as [[?|?] ?].
  - apply set_wf_clear.
Qed.

Lemma for_of_invariant {S A} (P : S -> Prop) (body : A -> M S unit) xs s :
  (forall x s, P s -> P (body x s).2) -> P s -> P (for_of xs body s).2.
Proof.
  intros Hb. revert s. induction xs as [|x xs IH]; intros s Hs; simpl; [done|].
  unfold bind. pose proof (Hb x s Hs) as Hx.
  destruct (body x s) as [[[]|e] s']; simpl in *; auto.
Qed.

Lemma map_wf_reachable ops : map_wf R (for_of ops (map_step R) (BufferMap.mk Map.empty)).2.
Proof.
  apply (for_of_invariant (map_wf R)); [intros; by apply map_wf_step | apply map_wf_empty].
Qed.

Lemma set_wf_reachable ops : set_wf R (for_of ops (set_step R) (BufferSet.mk Map.empty)).2.
Proof.
  apply (for_of_invariant (set_wf R)); [intros; by apply set_wf_step | apply set_wf_empty].
Qed.

(** In a well-formed map, the entry that retains a given key object is the
    one found under that object's canonical key. *)
Lemma map_wf_lookup this item s :
  map_wf R this ->
  item ∈ Map.values (BufferMap.map this) ->
  toBinary R (key item) = Normal s ->
  Map.get (BufferMap.map this) s = Some item.
Proof.
  intros [Hd Hf] Hin E. unfold Map.values in Hin.
  apply list_elem_of_fmap in Hin as ([s' item'] & -> & Hin). simpl in *.
  rewrite list.Forall_forall in Hf. pose proof (Hf _ Hin) as E'. simpl in E'.
  rewrite E in E'. injection E' as ->. by apply Map_get_elem.
Qed.

Lemma set_wf_lookup this k s :
  set_wf R this ->
  k ∈ Map.values (BufferSet.map this) ->
  toBinary R k = Normal s ->
  Map.get (BufferSet.map this) s = Some k.
Proof.
  intros [Hd Hf] Hin E. unfold Map.values in Hin.
  apply list_elem_of_fmap in Hin as ([s' k'] & -> & Hin). simpl in *.
  rewrite list.Forall_forall in Hf. pose proof (Hf _ Hin) as E'. simpl in E'.
  rewrite E in E'. injection E' as ->. by apply Map_get_elem.
Qed.

End Invariant.

(** ** Deletion *)

Section Deletion.
Variable R : realm.

Lemma map_entries_app m1 m2 :
  BufferMap.entries (BufferMap.mk (m1 ++ m2)) =
  BufferMap.entries (BufferMap.mk m1) ++ BufferMap.entries (BufferMap.mk m2).
Proof. unfold BufferMap.entries, Map.values. simpl. by rewrite !fmap_app. Qed.

Lemma map_delete_present this k s :
  map_wf R this ->
  toBinary R k = Normal s ->
  Map.has (BufferMap.map this) s = true ->
  let r := BufferMap.delete R k this in
  r.1 = Normal true /\
  BufferMap.size this = S (BufferMap.size r.2) /\
  (BufferMap.has R k r.2).1 = Normal false /\
  exists l1 e l2,
    BufferMap.entries this = l1 ++ e :: l2 /\
    toBinary R e.1 = toBinary R k /\
    BufferMap.entries r.2 = l1 ++ l2.
Proof.
  intros [Hd Hf] E Hh. simpl.
  rewrite (map_delete_run _ _ _ _ E), (map_has_run _ _ _ _ E). simpl.
  rewrite (Map_delete_gone _ _ Hd).
  destruct this as [m]. simpl in *.
  apply Map_present in Hh as (m1 & v0 & m2 & -> & _ & _ & _ & ->). simpl.
  repeat split.
  - unfold BufferMap.size, Map.size. simpl. rewrite !length_app. simpl. lia.
  - exists (BufferMap.entries (BufferMap.mk m1)), (key v0, value v0),
      (BufferMap.entries (BufferMap.mk m2)).
    rewrite !map_entries_app. repeat split; auto. simpl.
    apply Forall_app in Hf as [_ Hf]. apply list.Forall_cons in Hf as [Hv _].
    simpl in Hv. congruence.
Qed.

Lemma set_delete_present this k s :
  set_wf R this ->
  toBinary R k = Normal s ->
  Map.has (BufferSet.map this) s = true ->
  let r := BufferSet.delete R k this in
  r.1 = Normal true /\
  BufferSet.size this = S (BufferSet.size r.2) /\
  (BufferSet.has R k r.2).1 = Normal false /\
  exists l1 e l2,
    BufferSet.keys this = l1 ++ e :: l2 /\
    toBinary R e = toBinary R k /\
    BufferSet.keys r.2 = l1 ++ l2.
Proof.
  intros [Hd Hf] E Hh. simpl.
  rewrite (set_delete_run _ _ _ _ E), (set_has_run _ _ _ _ E). simpl.
  rewrite (Map_delete_gone _ _ Hd).
  destruct this as [m]. simpl in *.
  apply Map_present in Hh as (m1 & v0 & m2 & -> & _ & _ & _ & ->). simpl.
  repeat split.
  - unfold BufferSet.size, Map.size. simpl. rewrite !length_app. simpl. lia.
  - exists (m1.*2), v0, (m2.*2). unfold BufferSet.keys, Map.values. simpl.
    rewrite !fmap_app. repeat split; auto.
    apply Forall_app in Hf as [_ Hf]. apply list.Forall_cons in Hf as [Hv _].
    simpl in Hv. congruence.
Qed.

End Deletion.

(** C7. [delete(k)] with a byte-bearing key whose content is present
    returns true, takes exactly that entry out of the sequence of entries
    (after which [has(k)] is false) and lowers [size] by one; with a
    byte-bearing key whose content is absent it returns false and leaves
    the container as it was. This holds for BufferMap and for BufferSet. *)
Theorem deletion_semantics R (m : BufferMap.t) (s : BufferSet.t) (k : jsval) (bs : list byte) :
  map_wf R m ->
  set_wf R s ->
  content R k = Some bs ->
  ((BufferMap.has R k m).1 = Normal true ->
   let r := BufferMap.delete R k m in
   r.1 = Normal true /\
   BufferMap.size m = S (BufferMap.size r.2) /\
   (BufferMap.has R k r.2).1 = Normal false /\
   exists l1 e l2,
     BufferMap.entries m = l1 ++ e :: l2 /\
     toBinary R e.1 = toBinary R k /\
     BufferMap.entries r.2 = l1 ++ l2) /\
  ((BufferMap.has R k m).1 = Normal false ->
   BufferMap.delete R k m = (Normal false, m)) /\
  ((BufferSet.has R k s).1 = Normal true ->
   let r := BufferSet.delete R k s in
   r.1 = Normal true /\
   BufferSet.size s = S (BufferSet.size r.2) /\
   (BufferSet.has R k r.2).1 = Normal false /\
   exists l1 e l2,
     BufferSet.keys s = l1 ++ e :: l2 /\
     toBinary R e = toBinary R k /\
     BufferSet.keys r.2 = l1 ++ l2) /\
  ((BufferSet.has R k s).1 = Normal false ->
   BufferSet.delete R k s = (Normal false, s)).
Proof.
  intros Hm Hs E%toBinary_content.
  rewrite (map_has_run _ _ _ _ E), (set_has_run _ _ _ _ E). simpl.
  repeat apply conj.
  - intros [= Hh]. by apply (map_delete_present R m k _ Hm E).
  - intros [= Hh]. rewrite (map_delete_run _ _ _ _ E).
    apply Map_absent in Hh as (_ & _ & ->). by destruct m.
  - intros [= Hh]. by apply (set_delete_present R s k _ Hs E).
  - intros [= Hh]. rewrite (set_delete_run _ _ _ _ E).
    apply Map_absent in Hh as (_ & _ & ->). by destruct s.
Qed.

(** Deleting, from a two-entry map and a two-entry set, the entry for the
    bytes 02 03 04 through a key object other than the one stored; then
    deleting it once more. *)
Lemma deletion_semantics_witness :
  let m := (for_of [Insert (VObject 8) (VNumber 1); Insert (VObject 1) (VNumber 2)]
              (map_step demo) (BufferMap.mk Map.empty)).2 in
  let s := (for_of [Insert (VObject 8) VNull; Insert (VObject 1) VNull]
              (set_step demo) (BufferSet.mk Map.empty)).2 in
  ((BufferMap.delete demo (VObject 4) m).1 = Normal true /\
   BufferMap.size (BufferMap.delete demo (VObject 4) m).2 = 1) /\
  ((BufferSet.delete demo (VObject 4) s).1 = Normal true /\
   BufferSet.keys (BufferSet.delete demo (VObject 4) s).2 = [VObject 8]) /\
  (let m' := (BufferMap.delete demo (VObject 4) m).2 in
   BufferMap.delete demo (VObject 4) m' = (Normal false, m')).
Proof.
  intros m s.
  pose proof (deletion_semantics demo m s (VObject 4) [x02; x03; x04]
                (map_wf_reachable demo _) (set_wf_reachable demo _) eq_refl)
    as (Hm & _ & Hs & _).
  pose proof (deletion_semantics demo (BufferMap.delete demo (VObject 4) m).2 s (VObject 4)
                [x02; x03; x04]
                (map_wf_delete demo _ _ (map_wf_reachable demo _))
                (set_wf_reachable demo _) eq_refl)
    as (_ & Ha & _).
  specialize (Hm eq_refl). specialize (Hs eq_refl). specialize (Ha eq_refl).
  repeat split; try tauto; reflexivity.
Defined.

(** ** Overwriting *)

Lemma for_of_app {S A} (body : A -> M S unit) xs ys s s' :
  for_of xs body s = (Normal tt, s') ->
  for_of (xs ++ ys) body s = for_of ys body s'.
Proof.
  revert s. induction xs as [|x xs IH]; intros s; simpl.
  - unfold ret. by intros [= ->].
  - unfold bind. destruct (body x s) as [[[]|e] s1]; [apply IH | discriminate].
Qed.

Lemma for_of_ext {S A} (f g : A -> M S unit) xs s :
  (forall x s, f x s = g x s) -> for_of xs f s = for_of xs g s.
Proof.
  intros Hfg. revert s. induction xs as [|x xs IH]; intros s; simpl; [done|].
  unfold bind. rewrite Hfg. destruct (g x s) as [[[]|e] s1]; auto.
Qed.

Lemma map_new_run R pairs :
  BufferMap.new R (Some pairs) =
  match for_of pairs (fun '(key, value) => BufferMap.set R key value)
          (BufferMap.mk Map.empty) with
  | (Normal _, this) => Normal this
  | (Throw e, _) => Throw e
  end.
Proof. reflexivity. Qed.

Lemma map_keys_entries this : BufferMap.keys this = (BufferMap.entries this).*1.
Proof.
  unfold BufferMap.keys, BufferMap.entries. rewrite <- list_fmap_compose.
  by apply list_fmap_ext.
Qed.

Lemma map_values_entries this : BufferMap.values this = (BufferMap.entries this).*2.
Proof.
  unfold BufferMap.values, BufferMap.entries. rewrite <- list_fmap_compose.
  by apply list_fmap_ext.
Qed.

(** C4. Setting a content-equal key a second time overwrites: [size] is
    what it was after the first [set]; [get] of any content-equal key
    returns the second value; the one entry with that content yields the
    second key object and value, so that the first key object, if it is
    another object, is no longer iterated. A constructor whose pair
    sequence ends with the two pairs arrives at the same state. *)
Theorem overwrite_semantics R (m : BufferMap.t) (k1 k2 v1 v2 : jsval) (bs : list byte) :
  map_wf R m ->
  content R k1 = Some bs ->
  content R k2 = Some bs ->
  let m1 := (BufferMap.set R k1 v1 m).2 in
  let m2 := (BufferMap.set R k2 v2 m1).2 in
  (BufferMap.set R k1 v1 m).1 = Normal tt /\
  (BufferMap.set R k2 v2 m1).1 = Normal tt /\
  BufferMap.size m2 = BufferMap.size m1 /\
  (forall k, content R k = Some bs -> BufferMap.get R k m2 = (Normal v2, m2)) /\
  (k2, v2) ∈ BufferMap.entries m2 /\
  (forall k v, (k, v) ∈ BufferMap.entries m2 -> content R k = Some bs ->
     k = k2 /\ v = v2) /\
  (k1 ≠ k2 -> k1 ∉ BufferMap.keys m2) /\
  (forall pairs, BufferMap.new R (Some pairs) = Normal m ->
     BufferMap.new R (Some (pairs ++ [(k1, v1); (k2, v2)])) = Normal m2).
Proof.
  intros Hw H1 H2. pose proof (toBinary_content _ _ _ H1) as E1.
  pose proof (toBinary_content _ _ _ H2) as E2.
  pose proof (map_wf_set R m k1 v1 Hw) as Hw1.
  pose proof (map_wf_set R _ k2 v2 Hw1) as Hw2.
  revert Hw1 Hw2. rewrite (map_set_run _ _ _ _ _ E1). simpl.
  rewrite (map_set_run _ _ _ _ _ E2). simpl.
  set (s := latin1 bs) in *.
  set (m1 := Map.set (BufferMap.map m) s (mkBufferItem k1 v1)).
  set (m2 := Map.set m1 s (mkBufferItem k2 v2)).
  intros Hw1 Hw2.
  assert (Hget : Map.get m2 s = Some (mkBufferItem k2 v2)) by apply Map_get_set.
  assert (Hent : forall k v, (k, v) ∈ BufferMap.entries (BufferMap.mk m2) ->
                   content R k = Some bs -> k = k2 /\ v = v2).
  { intros k v Hin Hk. unfold BufferMap.entries in Hin.
    apply list_elem_of_fmap in Hin as (item & [= -> ->] & Hin).
    pose proof (map_wf_lookup R _ item s Hw2 Hin (toBinary_content _ _ _ Hk)) as Hl.
    simpl in Hl. rewrite Hget in Hl. by injection Hl as <-. }
  repeat apply conj; auto.
  - pose proof (Map_has_set (BufferMap.map m) s (mkBufferItem k1 v1)) as Hh.
    apply Map_present in Hh as (l1 & v0 & l2 & Hm1 & _ & _ & Hs & _).
    unfold BufferMap.size, Map.size, m2, m1. simpl. rewrite Hs, Hm1.
    by rewrite !length_app.
  - intros k Hk%toBinary_content. rewrite (map_get_run _ _ _ _ Hk). simpl.
    fold s. by rewrite Hget.
  - unfold BufferMap.entries. apply list_elem_of_fmap.
    exists (mkBufferItem k2 v2). split; [done|]. unfold Map.values.
    apply list_elem_of_fmap. exists (s, mkBufferItem k2 v2). split; [done|].
    by apply Map_get_Some_elem.
  - intros Hne Hin. rewrite map_keys_entries in Hin.
    apply list_elem_of_fmap in Hin as ([k v] & -> & Hin). simpl in *.
    by destruct (Hent k v Hin H1) as [-> _].
  - intros pairs. rewrite !map_new_run.
    destruct (for_of pairs _ _) as [[[]|e] m0] eqn:Hp; [|discriminate].
    intros [= ->]. rewrite (for_of_app _ _ _ _ _ Hp). simpl. unfold bind.
    rewrite (map_set_run _ _ _ _ _ E1). rewrite (map_set_run _ _ _ _ _ E2).
    reflexivity.
Qed.

(** Scenario: a map built from two pairs whose keys, a Buffer and a
    typed-array view, both read the bytes 02 03 04. *)
Lemma overwrite_semantics_witness :
  exists m2,
    BufferMap.new demo (Some [(VObject 1, VString [97%N]); (VObject 3, VString [98%N])])
      = Normal m2 /\
    BufferMap.size m2 = 1 /\
    BufferMap.get demo (VObject 4) m2 = (Normal (VString [98%N]), m2) /\
    BufferMap.keys m2 = [VObject 3].
Proof.
  pose proof (overwrite_semantics demo (BufferMap.mk Map.empty) (VObject 1) (VObject 3)
                (VString [97%N]) (VString [98%N]) [x02; x03; x04]
                (map_wf_empty demo) eq_refl eq_refl)
    as (_ & _ & _ & Hg & _ & _ & _ & Hn).
  eexists. split; [exact (Hn [] eq_refl)|].
  split; [reflexivity|]. split; [exact (Hg (VObject 4) eq_refl) | reflexivity].
Defined.

(** ** Iteration order *)

Section Order.
Variable R : realm.

(** Inserting keys whose contents are new and pairwise distinct appends
    one entry per pair, in the order given. *)
Lemma map_insert_fresh pairs css this :
  Forall2 (fun p bs => content R p.1 = Some bs) pairs css ->
  NoDup css ->
  (forall bs, bs ∈ css -> latin1 bs ∉ Map.keys (BufferMap.map this)) ->
  exists this',
    for_of pairs (fun '(key, value) => BufferMap.set R key value) this = (Normal tt, this') /\
    BufferMap.entries this' = BufferMap.entries this ++ pairs.
Proof.
  intros Hc. revert this. induction Hc as [|[k v] bs pairs css Hk Hc IH]; intros this Hd Hn.
  - exists this. split; [done|]. by rewrite app_nil_r.
  - apply list.NoDup_cons in Hd as [Hbs Hd]. simpl in Hk.
    pose proof (toBinary_content _ _ _ Hk) as E. simpl. unfold bind.
    rewrite (map_set_run _ _ _ _ _ E).
    assert (Map.has (BufferMap.map this) (latin1 bs) = false) as Hh.
    { apply Map_has_false, Hn. left. }
    apply Map_absent in Hh as (_ & -> & _).
    destruct (IH (BufferMap.mk (BufferMap.map this ++ [(latin1 bs, mkBufferItem k v)])) Hd)
      as (this' & Hrun & Hent).
    { intros bs' Hin. simpl. rewrite Map_keys_app, elem_of_app.
      intros [Hold|Hnew].
      - revert Hold. apply Hn. by right.
      - apply list_elem_of_singleton in Hnew. apply latin1_inj in Hnew. by subst. }
    exists this'. split; [done|]. rewrite Hent, map_entries_app.
    destruct this as [m]. simpl. by rewrite <- app_assoc.
Qed.

(** Re-setting the content held at position [i] rewrites the key object
    and the value at that position, and moves nothing. *)
Lemma map_set_in_place this i k k' v' bs :
  map_wf R this ->
  BufferMap.keys this !! i = Some k ->
  content R k = Some bs ->
  content R k' = Some bs ->
  BufferMap.entries (BufferMap.set R k' v' this).2 =
    <[i := (k', v')]> (BufferMap.entries this).
Proof.
  intros [Hd Hf] Hi Hk%toBinary_content Hk'%toBinary_content.
  rewrite (map_set_run _ _ _ _ _ Hk'). simpl.
  unfold BufferMap.keys, Map.values in Hi.
  apply list_lookup_fmap_Some_1 in Hi as (item & -> & Hi).
  apply list_lookup_fmap_Some_1 in Hi as ([s0 item0] & -> & Hi). simpl in *.
  rewrite list.Forall_forall in Hf.
  pose proof (Hf _ (list_elem_of_lookup_2 _ _ _ Hi)) as Hs. simpl in Hs.
  rewrite Hk in Hs. injection Hs as <-.
  rewrite (Map_set_at _ _ _ _ _ Hd Hi).
  unfold BufferMap.entries, Map.values. simpl. by rewrite !list_fmap_insert.
Qed.

End Order.

(** C5. Keys with pairwise distinct contents, inserted in some order into
    a new map, are iterated by [keys()] (and [entries()]) in exactly that
    order. Setting the content of an entry already present, through a new
    key object, changes the key object and the value stored at the entry's
    position and leaves every position where it was. *)
Theorem iteration_order R (pairs : list (jsval * jsval)) (css : list (list byte))
    (m : BufferMap.t) (i : nat) (k k' v' : jsval) (bs : list byte) :
  Forall2 (fun p c => content R p.1 = Some c) pairs css ->
  NoDup css ->
  map_wf R m ->
  BufferMap.keys m !! i = Some k ->
  content R k = Some bs ->
  content R k' = Some bs ->
  (exists m0,
     BufferMap.new R (Some pairs) = Normal m0 /\
     for_of pairs (fun p => BufferMap.set R p.1 p.2) (BufferMap.mk Map.empty)
       = (Normal tt, m0) /\
     BufferMap.keys m0 = pairs.*1 /\
     BufferMap.entries m0 = pairs) /\
  (let m' := (BufferMap.set R k' v' m).2 in
   BufferMap.keys m' = <[i := k']> (BufferMap.keys m) /\
   BufferMap.values m' = <[i := v']> (BufferMap.values m) /\
   BufferMap.size m' = BufferMap.size m).
Proof.
  intros Hc Hd Hw Hi Hk Hk'. split.
  - destruct (map_insert_fresh R pairs css (BufferMap.mk Map.empty) Hc Hd)
      as (m0 & Hrun & Hent).
    { intros ? _. apply not_elem_of_nil. }
    exists m0. rewrite map_new_run, Hrun. repeat split; auto.
    + rewrite <- Hrun. apply for_of_ext. by intros [].
    + by rewrite map_keys_entries, Hent.
  - pose proof (map_set_in_place R m i k k' v' bs Hw Hi Hk Hk') as He. simpl.
    rewrite map_keys_entries, map_values_entries, He, !list_fmap_insert.
    rewrite <- map_keys_entries, <- map_values_entries. repeat split; auto.
    assert (length (BufferMap.entries (BufferMap.set R k' v' m).2)
            = length (BufferMap.entries m)) as Hl by (by rewrite He, length_insert).
    unfold BufferMap.entries, BufferMap.size, Map.size, Map.values in *.
    by rewrite !length_fmap in Hl.
Qed.

(** Three Buffers over one allocation, reading 00, 02 03 04 and 05, are
    inserted in that order; the middle content is then set again through a
    typed-array view of another allocation. *)
Lemma iteration_order_witness :
  exists m0,
    BufferMap.new demo
      (Some [(VObject 8, VNumber 1); (VObject 1, VNumber 2); (VObject 9, VNumber 3)])
      = Normal m0 /\
    BufferMap.keys m0 = [VObject 8; VObject 1; VObject 9] /\
    BufferMap.keys (BufferMap.set demo (VObject 3) (VNumber 4) m0).2
      = [VObject 8; VObject 3; VObject 9] /\
    BufferMap.values (BufferMap.set demo (VObject 3) (VNumber 4) m0).2
      = [VNumber 1; VNumber 4; VNumber 3].
Proof.
  set (pairs := [(VObject 8, VNumber 1); (VObject 1, VNumber 2); (VObject 9, VNumber 3)]).
  set (m := (for_of pairs (map_step demo ∘ (fun p => Insert p.1 p.2))
               (BufferMap.mk Map.empty)).2).
  assert (Forall2 (fun p c => content demo p.1 = Some c) pairs
            [[x00]; [x02; x03; x04]; [x05]]) as Hc by (repeat constructor).
  assert (NoDup [[x00]; [x02; x03; x04]; [x05]]) as Hd
      by (apply (bool_decide_unpack _); vm_compute; exact I).
  assert (map_wf demo m) as Hw.
  { apply (for_of_invariant (map_wf demo)); [|apply map_wf_empty].
    intros x s Hs. by apply map_wf_set. }
  pose proof (iteration_order demo pairs _ m 1 (VObject 1) (VObject 3) (VNumber 4)
                [x02; x03; x04] Hc Hd Hw eq_refl eq_refl eq_refl)
    as ((m0 & Hn & _ & Hk & _) & Hs).
  exists m0. split; [exact Hn|]. split; [exact Hk|].
  assert (m0 = m) as -> by (vm_compute in Hn; by injection Hn as <-).
  destruct Hs as (Hs1 & Hs2 & _). split; [exact Hs1 | exact Hs2].
Defined.

(** ** Size accounting *)

Section Tracking.
Context {V : Type}.
Implicit Types (m : Map.t V) (X : gset (list byte)) (bs : list byte).

Lemma tracks_empty : tracks (V:=V) Map.empty ∅.
Proof. unfold tracks. by rewrite elements_empty. Qed.

Lemma tracks_size m X : tracks m X -> Map.size m = size X.
Proof.
  unfold tracks, Map.size, Map.keys. intros Hp.
  apply Permutation_length in Hp. by rewrite !length_fmap in Hp.
Qed.

Lemma tracks_has m X bs : tracks m X -> Map.has m (latin1 bs) = true <-> bs ∈ X.
Proof.
  unfold tracks. intros Hp. rewrite Map_has_elem, Hp, list_elem_of_fmap. split.
  - intros (bs' & ->%latin1_inj & Hin). by apply elem_of_elements.
  - intros Hin. exists bs. split; [done|]. by apply elem_of_elements.
Qed.

Lemma tracks_set m X bs v : tracks m X -> tracks (Map.set m (latin1 bs) v) ({[bs]} ∪ X).
Proof.
  intros Hp. destruct (Map.has m (latin1 bs)) eqn:E.
  - pose proof E as Hin. apply (tracks_has m X bs Hp) in Hin.
    rewrite (subseteq_union_1_L {[bs]} X) by (by apply singleton_subseteq_l).
    apply Map_present in E as (m1 & v0 & m2 & -> & _ & _ & -> & _).
    unfold tracks, Map.keys in *. by rewrite fmap_app in *.
  - assert (bs ∉ X) as Hn.
    { intros Hin. apply (tracks_has m X bs Hp) in Hin. congruence. }
    apply Map_absent in E as (_ & -> & _).
    unfold tracks in *. rewrite Map_keys_app, (elements_union_singleton _ _ Hn).
    simpl. rewrite Hp. by rewrite Permutation_app_comm.
Qed.

Lemma tracks_delete m X bs : tracks m X -> tracks (Map.delete m (latin1 bs)).2 (X ∖ {[bs]}).
Proof.
  intros Hp. destruct (Map.has m (latin1 bs)) eqn:E.
  - pose proof E as Hin. apply (tracks_has m X bs Hp) in Hin.
    assert (elements X ≡ₚ bs :: elements (X ∖ {[bs]})) as Hx.
    { rewrite <- elements_union_singleton
        by (apply not_elem_of_difference; right; by apply elem_of_singleton).
      by rewrite <- union_difference_singleton_L. }
    apply Map_present in E as (m1 & v0 & m2 & -> & _ & _ & _ & ->). simpl.
    unfold tracks, Map.keys in *. rewrite Hx in Hp. rewrite fmap_app in *. simpl in Hp.
    rewrite <- Permutation_middle in Hp. by apply Permutation_cons_inv in Hp.
  - assert (bs ∉ X) as Hn.
    { intros Hin. apply (tracks_has m X bs Hp) in Hin. congruence. }
    apply Map_absent in E as (_ & _ & ->). simpl.
    by rewrite difference_disjoint_L by (by apply disjoint_singleton_r).
Qed.

End Tracking.

Section Size.
Variable R : realm.

Lemma map_step_tracks o this X :
  op_byte_bearing R o ->
  tracks (BufferMap.map this) X ->
  (map_step R o this).1 = Normal tt /\
  tracks (BufferMap.map (map_step R o this).2) (live_step R X o).
Proof.
  intros Ho Hp. destruct o as [k v|k|]; simpl in *.
  - destruct Ho as [bs Hk]. rewrite Hk. simpl.
    rewrite (map_set_run _ _ _ _ _ (toBinary_content _ _ _ Hk)). simpl.
    split; [done | by apply tracks_set].
  - destruct Ho as [bs Hk]. rewrite Hk. simpl. unfold bind.
    rewrite (map_delete_run _ _ _ _ (toBinary_content _ _ _ Hk)). simpl.
    split; [done | by apply tracks_delete].
  - split; [done | apply tracks_empty].
Qed.

Lemma set_step_tracks o this X :
  op_byte_bearing R o ->
  tracks (BufferSet.map this) X ->
  (set_step R o this).1 = Normal tt /\
  tracks (BufferSet.map (set_step R o this).2) (live_step R X o).
Proof.
  intros Ho Hp. destruct o as [k v|k|]; simpl in *.
  - destruct Ho as [bs Hk]. rewrite Hk. simpl.
    rewrite (set_add_run _ _ _ _ (toBinary_content _ _ _ Hk)). simpl.
    split; [done | by apply tracks_set].
  - destruct Ho as [bs Hk]. rewrite Hk. simpl. unfold bind.
    rewrite (set_delete_run _ _ _ _ (toBinary_content _ _ _ Hk)). simpl.
    split; [done | by apply tracks_delete].
  - split; [done | apply tracks_empty].
Qed.

Lemma map_run_tracks ops this X :
  Forall (op_byte_bearing R) ops ->
  tracks (BufferMap.map this) X ->
  (for_of ops (map_step R) this).1 = Normal tt /\
  tracks (BufferMap.map (for_of ops (map_step R) this).2) (foldl (live_step R) X ops).
Proof.
  intros Ho. revert this X. induction Ho as [|o ops Ho _ IH]; intros this X Hp; simpl.
  - done.
  - destruct (map_step_tracks o this X Ho Hp) as [Hr Ht]. unfold bind.
    destruct (map_step R o this) as [[[]|e] this']; [|discriminate]. by apply IH.
Qed.

Lemma set_run_tracks ops this X :
  Forall (op_byte_bearing R) ops ->
  tracks (BufferSet.map this) X ->
  (for_of ops (set_step R) this).1 = Normal tt /\
  tracks (BufferSet.map (for_of ops (set_step R) this).2) (foldl (live_step R) X ops).
Proof.
  intros Ho. revert this X. induction Ho as [|o ops Ho _ IH]; intros this X Hp; simpl.
  - done.
  - destruct (set_step_tracks o this X Ho Hp) as [Hr Ht]. unfold bind.
    destruct (set_step R o this) as [[[]|e] this']; [|discriminate]. by apply IH.
Qed.

End Size.

(** C6. After any history of [set]/[add], [delete] and [clear] with
    byte-bearing keys, run on a new BufferMap or BufferSet, every operation
    has succeeded and [size] is the number of distinct byte contents
    inserted and not since deleted; inserting a key whose content is among
    them leaves [size] as it is. *)
Theorem size_accounting R (ops : list op) :
  Forall (op_byte_bearing R) ops ->
  let m := for_of ops (map_step R) (BufferMap.mk Map.empty) in
  let s := for_of ops (set_step R) (BufferSet.mk Map.empty) in
  m.1 = Normal tt /\
  s.1 = Normal tt /\
  BufferMap.size m.2 = size (live R ops) /\
  BufferSet.size s.2 = size (live R ops) /\
  (forall k v bs, content R k = Some bs -> bs ∈ live R ops ->
     BufferMap.size (BufferMap.set R k v m.2).2 = BufferMap.size m.2 /\
     BufferSet.size (BufferSet.add R k s.2).2 = BufferSet.size s.2).
Proof.
  intros Ho. simpl.
  destruct (map_run_tracks R ops (BufferMap.mk Map.empty) ∅ Ho tracks_empty) as [Hm Htm].
  destruct (set_run_tracks R ops (BufferSet.mk Map.empty) ∅ Ho tracks_empty) as [Hs Hts].
  fold (live R ops) in Htm, Hts.
  repeat apply conj; auto using tracks_size.
  - by apply tracks_size.
  - by apply tracks_size.
  - intros k v bs Hk Hin. pose proof (toBinary_content _ _ _ Hk) as E.
    rewrite (map_set_run _ _ _ _ _ E), (set_add_run _ _ _ _ E).
    unfold BufferMap.size, BufferSet.size. simpl.
    rewrite (tracks_size _ _ (tracks_set _ _ bs _ Htm)).
    rewrite (tracks_size _ _ (tracks_set _ _ bs _ Hts)).
    rewrite (tracks_size _ _ Htm), (tracks_size _ _ Hts).
    by rewrite (subseteq_union_1_L {[bs]} (live R ops)) by (by apply singleton_subseteq_l).
Qed.

(** The empty sequence added twice; then three contents inserted through
    five key objects, one of them deleted through a sixth. *)
Lemma size_accounting_witness :
  BufferSet.size
    (for_of [Insert (VObject 5) VNull; Insert (VObject 5) VNull] (set_step demo)
       (BufferSet.mk Map.empty)).2 = 1 /\
  BufferMap.size
    (for_of [Insert (VObject 8) VNull; Insert (VObject 1) VNull; Insert (VObject 2) VNull;
             Insert (VObject 3) VNull; Insert (VObject 9) VNull; Delete (VObject 4)]
       (map_step demo) (BufferMap.mk Map.empty)).2 = 2.
Proof.
  split.
  - destruct (size_accounting demo [Insert (VObject 5) VNull; Insert (VObject 5) VNull])
      as (_ & _ & _ & -> & _).
    + repeat constructor; by eexists.
    + by vm_compute.
  - destruct (size_accounting demo
        [Insert (VObject 8) VNull; Insert (VObject 1) VNull; Insert (VObject 2) VNull;
         Insert (VObject 3) VNull; Insert (VObject 9) VNull; Delete (VObject 4)])
      as (_ & _ & -> & _).
    + repeat constructor; by eexists.
    + by vm_compute.
Defined.

(** ** Materialisers *)

Lemma foldl_push {A B} (f : A -> B) (xs : list A) (out : list B) :
  foldl (fun out x => out ++ [f x]) out xs = out ++ (f <$> xs).
Proof.
  revert out. induction xs as [|x xs IH]; intros out; simpl.
  - by rewrite app_nil_r.
  - by rewrite IH, <- app_assoc.
Qed.

Lemma foldl_push_id {A} (xs out : list A) :
  foldl (fun out x => out ++ [x]) out xs = out ++ xs.
Proof.
  revert out. induction xs as [|x xs IH]; intros out; simpl.
  - by rewrite app_nil_r.
  - by rewrite IH, <- app_assoc.
Qed.

(** C9. On a BufferMap, [toKeys()] is the sequence [keys()] yields and
    [toValues()] and [toArray()] are the sequence [values()] yields. On a
    BufferSet, [toArray()], [toKeys()] and [toValues()] are all the stored
    key objects in the order of the underlying Map, which is also what
    [keys()] and [values()] iterate. *)
Theorem materialisers_agree (m : BufferMap.t) (s : BufferSet.t) :
  BufferMap.toKeys m = BufferMap.keys m /\
  BufferMap.toValues m = BufferMap.values m /\
  BufferMap.toArray m = BufferMap.values m /\
  BufferSet.toArray s = Map.values (BufferSet.map s) /\
  BufferSet.toKeys s = Map.values (BufferSet.map s) /\
  BufferSet.toValues s = Map.values (BufferSet.map s) /\
  BufferSet.keys s = Map.values (BufferSet.map s) /\
  BufferSet.values s = Map.values (BufferSet.map s).
Proof.
  unfold BufferMap.toArray, BufferMap.toKeys, BufferMap.toValues, BufferMap.keys,
    BufferMap.values, BufferSet.toArray, BufferSet.toValues, BufferSet.toKeys,
    BufferSet.keys, BufferSet.values.
  by rewrite foldl_push_id, !foldl_push.
Qed.

(** ** forEach *)

Section ForEach.
Context {U C : Type}.
Variable Call : invocation -> U -> completion jsval * U.
Variables func self : jsval.
Hypothesis returns :
  forall arguments u, exists r, (Call (mkInvocation func self arguments) u).1 = Normal r.

Lemma call_run (arguments : list jsval) (c : C) (w : world U) :
  let i := mkInvocation func self arguments in
  (let* _ := Function_call Call func self arguments in ret tt) (c, w)
  = (Normal tt, (c, mkWorld (calls w ++ [i]) (Call i (user w)).2)).
Proof.
  simpl. unfold bind, Function_call, ret.
  destruct (returns arguments (user w)) as [r Hr].
  destruct (Call _ (user w)) as [r' u']. simpl in *. by subst r'.
Qed.

Lemma for_of_calls {A} (arguments : A -> list jsval) (items : list A) (c : C) (w : world U) :
  exists u,
    for_of items
      (fun x => let* _ := Function_call Call func self (arguments x) in ret tt) (c, w)
    = (Normal tt,
       (c, mkWorld (calls w ++ ((fun x => mkInvocation func self (arguments x)) <$> items)) u)).
Proof.
  revert w. induction items as [|x items IH]; intros w.
  - exists (user w). simpl. rewrite app_nil_r. by destruct w.
  - cbn [for_of]. unfold bind at 1. rewrite call_run.
    destruct (IH (mkWorld (calls w ++ [mkInvocation func self (arguments x)])
                    (Call (mkInvocation func self (arguments x)) (user w)).2)) as [u ->].
    exists u. simpl. by rewrite <- app_assoc.
Qed.

End ForEach.

Lemma call_step {U C} (Call : invocation -> U -> completion jsval * U)
    (func self : jsval) (arguments : list jsval) (c : C) (w : world U) :
  let i := mkInvocation func self arguments in
  (let* _ := Function_call Call func self arguments in ret tt) (c, w)
  = (match (Call i (user w)).1 with Normal _ => Normal tt | Throw e => Throw e end,
     (c, mkWorld (calls w ++ [i]) (Call i (user w)).2)).
Proof.
  simpl. unfold bind, Function_call, ret.
  by destruct (Call _ (user w)) as [[r|e] u].
Qed.

(** Whatever the callback does, the calls made are an initial segment of
    the calls due, and the container is passed through. *)
Lemma for_of_calls_prefix {U C A} (Call : invocation -> U -> completion jsval * U)
    (func self : jsval) (arguments : A -> list jsval) (items : list A) (c : C) (w : world U) :
  exists n r u,
    for_of items
      (fun x => let* _ := Function_call Call func self (arguments x) in ret tt) (c, w)
    = (r, (c, mkWorld (calls w ++ take n ((fun x => mkInvocation func self (arguments x))
                                            <$> items)) u)).
Proof.
  revert w. induction items as [|x items IH]; intros w.
  - exists 0, (Normal tt), (user w). simpl. rewrite app_nil_r. by destruct w.
  - cbn [for_of]. unfold bind at 1. rewrite call_step.
    destruct (Call (mkInvocation func self (arguments x)) (user w)).1 as [r0|e].
    + destruct (IH (mkWorld (calls w ++ [mkInvocation func self (arguments x)])
                      (Call (mkInvocation func self (arguments x)) (user w)).2))
        as (n & r & u & ->).
      exists (S n), r, u. simpl. by rewrite <- app_assoc.
    + exists 1, (Throw e), (Call (mkInvocation func self (arguments x)) (user w)).2.
      simpl. by rewrite take_0.
Qed.

Section ForEachRuns.
Context {U : Type}.
Variable R : realm.
Variable Call : invocation -> U -> completion jsval * U.
Variables this_ref func self : jsval.
Hypothesis callable : typeof R func = "function".
Hypothesis returns :
  forall arguments u, exists r, (Call (mkInvocation func self arguments) u).1 = Normal r.

Lemma map_forEach_run (m : BufferMap.t) (w : world U) :
  exists u,
    BufferMap.forEach R Call this_ref func self (m, w)
    = (Normal tt,
       (m, mkWorld (calls w ++ ((fun e => mkInvocation func self [e.2; e.1; this_ref])
                                  <$> BufferMap.entries m)) u)).
Proof.
  unfold BufferMap.forEach. rewrite decide_True by done.
  unfold bind at 1, read. cbn [fst].
  destruct (for_of_calls Call func self returns
              (fun item => [value item; key item; this_ref])
              (Map.values (BufferMap.map m)) m w) as [u Hu].
  exists u. rewrite Hu. unfold BufferMap.entries. by rewrite <- list_fmap_compose.
Qed.

Lemma set_forEach_run (s : BufferSet.t) (w : world U) :
  exists u,
    BufferSet.forEach R Call this_ref func self (s, w)
    = (Normal tt,
       (s, mkWorld (calls w ++ ((fun k => mkInvocation func self [k; k; this_ref])
                                  <$> BufferSet.keys s)) u)).
Proof.
  unfold BufferSet.forEach. rewrite decide_True by done.
  unfold bind at 1, read. cbn [fst].
  destruct (for_of_calls Call func self returns
              (fun k => [k; k; this_ref])
              (Map.values (BufferSet.map s)) s w) as [u Hu].
  exists u. by rewrite Hu.
Qed.

End ForEachRuns.

(** C8. [forEach(func, self)] with a [func] that is not a function throws
    a TypeError naming [typeof func]; no call has been made and neither
    the container nor anything else has changed. With a function that
    returns normally, it makes exactly one call per entry, in iteration
    order, with [self] as receiver and the arguments [(value, key, this)]
    on a BufferMap and [(key, key, this)] on a BufferSet. In every case the
    container is left as it was and the calls made are an initial segment
    of those calls. *)
Theorem forEach_contract R {U} (Call : invocation -> U -> completion jsval * U)
    (m : BufferMap.t) (s : BufferSet.t) (this_ref func self : jsval) (w : world U) :
  let due_m := (fun e => mkInvocation func self [e.2; e.1; this_ref])
                 <$> BufferMap.entries m in
  let due_s := (fun k => mkInvocation func self [k; k; this_ref])
                 <$> BufferSet.keys s in
  let rm := BufferMap.forEach R Call this_ref func self (m, w) in
  let rs := BufferSet.forEach R Call this_ref func self (s, w) in
  (typeof R func ≠ "function" ->
   let e := TypeError (typeof R func +:+ " is not a function") in
   rm = (Throw e, (m, w)) /\ rs = (Throw e, (s, w))) /\
  (typeof R func = "function" ->
   (forall arguments u,
      exists r, (Call (mkInvocation func self arguments) u).1 = Normal r) ->
   rm.1 = Normal tt /\ calls rm.2.2 = calls w ++ due_m /\
   rs.1 = Normal tt /\ calls rs.2.2 = calls w ++ due_s) /\
  (rm.2.1 = m /\ rs.2.1 = s /\
   exists n n', calls rm.2.2 = calls w ++ take n due_m /\
                calls rs.2.2 = calls w ++ take n' due_s).
Proof.
  simpl. repeat apply conj.
  - intros Hne. unfold BufferMap.forEach, BufferSet.forEach.
    by rewrite !decide_False.
  - intros Hfn Hret.
    destruct (map_forEach_run R Call this_ref func self Hfn Hret m w) as [u1 ->].
    destruct (set_forEach_run R Call this_ref func self Hfn Hret s w) as [u2 ->].
    by simpl.
  - unfold BufferMap.forEach. case_decide; [|done].
    unfold bind at 1, read. cbn [fst].
    by destruct (for_of_calls_prefix Call func self
                   (fun item => [value item; key item; this_ref])
                   (Map.values (BufferMap.map m)) m w) as (n & r & u & ->).
  - unfold BufferSet.forEach. case_decide; [|done].
    unfold bind at 1, read. cbn [fst].
    by destruct (for_of_calls_prefix Call func self
                   (fun k => [k; k; this_ref])
                   (Map.values (BufferSet.map s)) s w) as (n & r & u & ->).
  - unfold BufferMap.forEach, BufferSet.forEach. case_decide.
    + unfold bind at 1 3, read. cbn [fst].
      destruct (for_of_calls_prefix Call func self
                  (fun item => [value item; key item; this_ref])
                  (Map.values (BufferMap.map m)) m w) as (n & r & u & ->).
      destruct (for_of_calls_prefix Call func self
                  (fun k => [k; k; this_ref])
                  (Map.values (BufferSet.map s)) s w) as (n' & r' & u' & ->).
      exists n, n'. simpl. unfold BufferMap.entries, BufferSet.keys.
      by rewrite <- list_fmap_compose.
    + exists 0, 0. simpl. by rewrite !take_0, app_nil_r.
Qed.

(** A counting function, and a plain object passed in its place, against
    a map and a set with two entries each. *)
Lemma forEach_contract_witness :
  let m := (for_of [Insert (VObject 8) (VNumber 1); Insert (VObject 1) (VNumber 2)]
              (map_step demo) (BufferMap.mk Map.empty)).2 in
  let s := (for_of [Insert (VObject 8) VNull; Insert (VObject 1) VNull]
              (set_step demo) (BufferSet.mk Map.empty)).2 in
  let w := mkWorld [] 0 in
  BufferMap.forEach demo counting (VObject 11) (VObject 7) VUndefined (m, w)
    = (Throw (TypeError "object is not a function"), (m, w)) /\
  calls (BufferMap.forEach demo counting (VObject 11) (VObject 6) VNull (m, w)).2.2
    = [mkInvocation (VObject 6) VNull [VNumber 1; VObject 8; VObject 11];
       mkInvocation (VObject 6) VNull [VNumber 2; VObject 1; VObject 11]] /\
  calls (BufferSet.forEach demo counting (VObject 12) (VObject 6) VNull (s, w)).2.2
    = [mkInvocation (VObject 6) VNull [VObject 8; VObject 8; VObject 12];
       mkInvocation (VObject 6) VNull [VObject 1; VObject 1; VObject 12]].
Proof.
  intros m s w.
  assert (forall f self arguments (u : nat),
            exists r, (counting (mkInvocation f self arguments) u).1 = Normal r) as Hret
      by (intros; by eexists).
  destruct (forEach_contract demo counting m s (VObject 11) (VObject 7) VUndefined w)
    as (Hbad & _ & _).
  destruct (forEach_contract demo counting m s (VObject 11) (VObject 6) VNull w)
    as (_ & Hmap & _).
  destruct (forEach_contract demo counting m s (VObject 12) (VObject 6) VNull w)
    as (_ & Hset & _).
  split; [apply Hbad; discriminate|].
  split; [apply (Hmap eq_refl (Hret _ _)) | apply (Hset eq_refl (Hret _ _))].
Defined.

(** * Further properties of the code *)

(** ** The two encodings *)

Lemma encode_key_bytes R key enc :
  encode R key enc =
  match key_bytes R key with
  | Normal bs => Normal (match enc with binary => latin1 bs | hex => hex_string bs end)
  | Throw e => Throw e
  end.
Proof.
  unfold encode, key_bytes, Buffer_toString.
  destruct (as_Buffer R key); [by destruct enc|].
  destruct (toBuffer R key); by destruct enc.
Qed.

Lemma key_bytes_content R key bs : content R key = Some bs -> key_bytes R key = Normal bs.
Proof.
  intros E%toBinary_content. unfold toBinary in E. rewrite encode_key_bytes in E.
  destruct (key_bytes R key); [|discriminate].
  injection E as E%latin1_inj. by subst.
Qed.

Lemma toHex_content R key bs : content R key = Some bs -> toHex R key = Normal (hex_string bs).
Proof.
  intros E%key_bytes_content. unfold toHex. by rewrite encode_key_bytes, E.
Qed.

Lemma hex_digit_inj n n' :
  (n < 16)%N -> (n' < 16)%N -> hex_digit n = hex_digit n' -> n = n'.
Proof.
  unfold hex_digit. intros Hn Hn'.
  destruct (N.ltb_spec n 10), (N.ltb_spec n' 10); lia.
Qed.

Lemma hex_digit_range n :
  (n < 16)%N ->
  (48 <= hex_digit n <= 57)%N \/ (97 <= hex_digit n <= 102)%N.
Proof. unfold hex_digit. intros Hn. destruct (N.ltb_spec n 10); lia. Qed.

Lemma hex_string_cons b bs :
  hex_string (b :: bs) =
  hex_digit (Byte.to_N b / 16) :: hex_digit (Byte.to_N b mod 16) :: hex_string bs.
Proof. reflexivity. Qed.

Lemma byte_nibbles b :
  (Byte.to_N b / 16 < 16)%N /\ (Byte.to_N b mod 16 < 16)%N.
Proof.
  pose proof (Byte.to_N_bounded b). split.
  - apply N.Div0.div_lt_upper_bound. lia.
  - apply N.mod_lt. lia.
Qed.

Lemma hex_string_inj bs1 bs2 : hex_string bs1 = hex_string bs2 -> bs1 = bs2.
Proof.
  revert bs2. induction bs1 as [|b bs1 IH]; intros [|b' bs2]; try discriminate; [done|].
  rewrite !hex_string_cons. intros [= Hhi Hlo Ht].
  destruct (byte_nibbles b) as [H1 H2], (byte_nibbles b') as [H1' H2'].
  apply hex_digit_inj in Hhi; [|done..]. apply hex_digit_inj in Hlo; [|done..].
  f_equal; [|by apply IH].
  assert (Byte.to_N b = Byte.to_N b') as E.
  { rewrite (N.div_mod (Byte.to_N b) 16), (N.div_mod (Byte.to_N b') 16) by lia.
    by rewrite Hhi, Hlo. }
  pose proof (Byte.of_to_N b) as Hb. rewrite E, Byte.of_to_N in Hb. congruence.
Qed.

Lemma hex_string_length bs : length (hex_string bs) = 2 * length bs.
Proof. induction bs as [|b bs IH]; [done|]. rewrite hex_string_cons. simpl. lia. Qed.

Lemma hex_string_digits bs :
  Forall (fun u => (48 <= u <= 57)%N \/ (97 <= u <= 102)%N) (hex_string bs).
Proof.
  induction bs as [|b bs IH]; [constructor|]. rewrite hex_string_cons.
  destruct (byte_nibbles b).
  apply list.Forall_cons. split; [by apply hex_digit_range|].
  apply list.Forall_cons. split; [by apply hex_digit_range | exact IH].
Qed.

(** X1. [toHex] prints a byte-bearing key as two lower-case hexadecimal
    digits per byte, and is as discriminating as [toBinary]: two keys have
    the same hex string exactly when they have the same bytes, hence
    exactly when they have the same canonical key. *)
Theorem toHex_faithful R (k1 k2 : jsval) (bs1 bs2 : list byte) :
  content R k1 = Some bs1 ->
  content R k2 = Some bs2 ->
  toHex R k1 = Normal (hex_string bs1) /\
  length (hex_string bs1) = 2 * length bs1 /\
  Forall (fun u => (48 <= u <= 57)%N \/ (97 <= u <= 102)%N) (hex_string bs1) /\
  (toHex R k1 = toHex R k2 <-> bs1 = bs2) /\
  (toHex R k1 = toHex R k2 <-> toBinary R k1 = toBinary R k2).
Proof.
  intros H1 H2. rewrite (toHex_content _ _ _ H1), (toHex_content _ _ _ H2).
  rewrite (toBinary_content _ _ _ H1), (toBinary_content _ _ _ H2).
  repeat apply conj; auto using hex_string_length, hex_string_digits.
  - intros [= E]. by apply hex_string_inj.
  - by intros ->.
  - intros [= E%hex_string_inj]. by subst.
  - intros [= E%latin1_inj]. by subst.
Qed.

Lemma toHex_faithful_witness :
  toHex demo (VObject 1) = Normal [48; 50; 48; 51; 48; 52]%N /\
  (toHex demo (VObject 1) = toHex demo (VObject 4) <-> [x02; x03; x04] = [x02; x03; x04]).
Proof.
  pose proof (toHex_faithful demo (VObject 1) (VObject 4) [x02; x03; x04] [x02; x03; x04]
                eq_refl eq_refl) as (H1 & _ & _ & H2 & _).
  split; [exact H1 | exact H2].
Defined.

(** X2. For any key at all, [toBinary] and [toHex] fail together, with the
    same exception, and succeed together, on the same bytes; a canonical
    key never holds a code unit above 255. *)
Theorem encodings_agree R (key : jsval) :
  (forall e, toBinary R key = Throw e <-> toHex R key = Throw e) /\
  (forall s, toBinary R key = Normal s ->
     Forall (fun u => (u < 256)%N) s /\
     exists bs, s = latin1 bs /\ toHex R key = Normal (hex_string bs)) /\
  (forall x, toHex R key = Normal x ->
     exists bs, x = hex_string bs /\ toBinary R key = Normal (latin1 bs)).
Proof.
  unfold toBinary, toHex. rewrite !encode_key_bytes.
  destruct (key_bytes R key) as [bs|e0]; repeat apply conj.
  - intros e. by split.
  - intros s [= <-]. split; [apply latin1_units | by exists bs].
  - intros x [= <-]. by exists bs.
  - intros e. by split.
  - intros s [=].
  - intros x [=].
Qed.

(** ** toBuffer *)

(** X3. [toBuffer] turns any byte-bearing key, a Buffer included, into a
    Buffer over exactly the key's bytes, sharing the key's backing store;
    any other value makes it throw the TypeError. *)
Theorem toBuffer_window R (key other : jsval) (bs : list byte) :
  content R key = Some bs ->
  byte_bearing R other = false ->
  (exists v, toBuffer R key = Normal v /\ bytes_of R v = bs /\
             window R v = Some bs /\ byteLength v = length bs /\
             (forall w, as_view R key = Some w -> v = w) /\
             (as_view R key = None -> key = VObject (buffer v) /\ byteOffset v = 0)) /\
  toBuffer R other = Throw (TypeError "Non-buffer passed to buffer map/set.").
Proof.
  intros Hk Ho. split.
  - unfold content in Hk. unfold toBuffer, as_view, isArrayBuffer, instanceof_ArrayBuffer,
      instanceof_SharedArrayBuffer.
    destruct key as [| | | | |a]; try discriminate.
    destruct (objects R !! a) as [[data|data|v|v| |]|] eqn:Ha; try discriminate.
    + injection Hk as <-. exists (mkView a 0 (length data)).
      unfold Buffer_from, byteLength_of, bytes_of, window. rewrite Ha. simpl. rewrite Ha.
      rewrite !decide_False by lia. rewrite decide_True by lia.
      rewrite drop_0, firstn_all. by repeat split.
    + destruct (HAS_SHARED_ARRAY_BUFFER R); try discriminate.
      injection Hk as <-. exists (mkView a 0 (length data)).
      unfold Buffer_from, byteLength_of, bytes_of, window. rewrite Ha. simpl. rewrite Ha.
      rewrite !decide_False by lia. rewrite decide_True by lia.
      rewrite drop_0, firstn_all. by repeat split.
    + exists v. rewrite (Buffer_from_window _ _ _ Hk), (window_bytes_of _ _ _ Hk).
      repeat split; auto; try congruence.
      unfold window in Hk. destruct (objects R !! buffer v) as [[]|]; try discriminate;
        case_decide; try discriminate; injection Hk as <-;
        rewrite length_take, length_drop; lia.
    + exists v. rewrite (Buffer_from_window _ _ _ Hk), (window_bytes_of _ _ _ Hk).
      repeat split; auto; try congruence.
      unfold window in Hk. destruct (objects R !! buffer v) as [[]|]; try discriminate;
        case_decide; try discriminate; injection Hk as <-;
        rewrite length_take, length_drop; lia.
  - unfold byte_bearing in Ho. unfold toBuffer, as_view, isArrayBuffer,
      instanceof_ArrayBuffer, instanceof_SharedArrayBuffer.
    destruct other as [| | | | |a];
      try (by destruct (HAS_SHARED_ARRAY_BUFFER R)).
    destruct (objects R !! a) as [[]|]; try discriminate;
      by destruct (HAS_SHARED_ARRAY_BUFFER R).
Qed.

Lemma toBuffer_window_witness :
  toBuffer demo (VObject 3) = Normal (mkView 2 0 3) /\
  toBuffer demo (VObject 2) = Normal (mkView 2 0 3) /\
  toBuffer demo (VObject 6) = Throw (TypeError "Non-buffer passed to buffer map/set.").
Proof.
  destruct (toBuffer_window demo (VObject 3) (VObject 6) [x02; x03; x04] eq_refl eq_refl)
    as [(v & Hv & _ & _ & _ & Hw & _) Hthrow].
  split; [by rewrite Hv, (Hw _ eq_refl)|]. split; [reflexivity | exact Hthrow].
Defined.

(** ** More on the host's Map *)

Section MoreMapFacts.
Context {V : Type}.
Implicit Types (m : Map.t V) (k : jsstring) (v : V).

Lemma Map_set_set m k v v' : Map.set (Map.set m k v) k v' = Map.set m k v'.
Proof.
  induction m as [|[k0 v0] m IH]; simpl.
  - by rewrite decide_True.
  - case_decide; simpl; [by rewrite decide_True | rewrite decide_False by done].
    by rewrite IH.
Qed.

Lemma Map_delete_set_absent m k v :
  Map.has m k = false -> Map.delete (Map.set m k v) k = (true, m).
Proof.
  induction m as [|[k0 v0] m IH]; simpl.
  - by rewrite decide_True.
  - case_decide; [discriminate|]. intros Hh. simpl. rewrite decide_False by done.
    by rewrite (IH Hh).
Qed.

Lemma Map_size_set_present m k v : Map.has m k = true -> Map.size (Map.set m k v) = Map.size m.
Proof.
  intros (m1 & v0 & m2 & -> & _ & _ & -> & _)%Map_present.
  unfold Map.size. by rewrite !length_app.
Qed.

End MoreMapFacts.

(** ** clear *)

(** X4. [clear()] never throws and empties the container: [size] is 0,
    nothing is iterated, and for every byte-bearing key [has] is false,
    [get] is [undefined] and [delete] returns false. The container stays
    usable: a [set] (or [add]) that follows creates the only entry. *)
Theorem clear_resets R (m : BufferMap.t) (s : BufferSet.t) (k v : jsval) (bs : list byte) :
  content R k = Some bs ->
  let m' := (BufferMap.clear m).2 in
  let s' := (BufferSet.clear s).2 in
  (BufferMap.clear m).1 = Normal tt /\
  BufferMap.size m' = 0 /\ BufferMap.entries m' = [] /\
  BufferMap.has R k m' = (Normal false, m') /\
  BufferMap.get R k m' = (Normal VUndefined, m') /\
  BufferMap.delete R k m' = (Normal false, m') /\
  BufferMap.entries (BufferMap.set R k v m').2 = [(k, v)] /\
  (BufferSet.clear s).1 = Normal tt /\
  BufferSet.size s' = 0 /\ BufferSet.keys s' = [] /\
  BufferSet.has R k s' = (Normal false, s') /\
  BufferSet.delete R k s' = (Normal false, s') /\
  BufferSet.keys (BufferSet.add R k s').2 = [k].
Proof.
  intros E%toBinary_content. simpl.
  rewrite (map_has_run _ _ _ _ E), (map_get_run _ _ _ _ E), (map_delete_run _ _ _ _ E).
  rewrite (map_set_run _ _ _ _ _ E).
  rewrite (set_has_run _ _ _ _ E), (set_delete_run _ _ _ _ E), (set_add_run _ _ _ _ E).
  by repeat split.
Qed.

Lemma clear_resets_witness :
  let m := (BufferMap.set demo (VObject 1) (VNumber 1) (BufferMap.mk Map.empty)).2 in
  BufferMap.has demo (VObject 1) (BufferMap.clear m).2
    = (Normal false, BufferMap.mk Map.empty) /\
  BufferMap.size (BufferMap.clear m).2 = 0.
Proof.
  intros m.
  pose proof (clear_resets demo m (BufferSet.mk Map.empty) (VObject 1) VNull
                [x02; x03; x04] eq_refl) as (_ & Hs & _ & Hh & _).
  split; [exact Hh | exact Hs].
Defined.

(** ** BufferSet: content equality, overwriting, order *)

(** X5. In a BufferSet, [add(a)] makes [has(b)] true for every key [b]
    with the same bytes. Adding a second, content-equal key object leaves
    [size] unchanged and replaces the stored key object: the outcome is the
    state [add] of the second key alone would give, the second object is
    iterated and the first, if it is another object, is not. *)
Theorem set_add_overwrites R (s : BufferSet.t) (a b : jsval) (bs : list byte) :
  set_wf R s ->
  content R a = Some bs ->
  content R b = Some bs ->
  let s1 := (BufferSet.add R a s).2 in
  let s2 := (BufferSet.add R b s1).2 in
  (BufferSet.add R a s).1 = Normal tt /\
  BufferSet.has R b s1 = (Normal true, s1) /\
  BufferSet.size s2 = BufferSet.size s1 /\
  s2 = (BufferSet.add R b s).2 /\
  b ∈ BufferSet.keys s2 /\
  (forall k, k ∈ BufferSet.keys s2 -> content R k = Some bs -> k = b) /\
  (a ≠ b -> a ∉ BufferSet.keys s2).
Proof.
  intros Hw Ha Hb. pose proof (toBinary_content _ _ _ Ha) as Ea.
  pose proof (toBinary_content _ _ _ Hb) as Eb.
  pose proof (set_wf_add R _ b (set_wf_add R s a Hw)) as Hw2. revert Hw2. simpl.
  rewrite (set_add_run _ _ _ _ Ea). simpl.
  rewrite (set_add_run _ _ _ _ Eb), (set_has_run _ _ _ _ Eb). simpl.
  rewrite (set_add_run _ _ _ _ Eb). simpl.
  rewrite Map_has_set, Map_set_set. intros Hw2.
  assert (Hget : Map.get (Map.set (BufferSet.map s) (latin1 bs) b) (latin1 bs) = Some b)
    by apply Map_get_set.
  assert (Huniq : forall k, k ∈ BufferSet.keys (BufferSet.mk
                    (Map.set (BufferSet.map s) (latin1 bs) b)) ->
                  content R k = Some bs -> k = b).
  { intros k Hin Hk.
    pose proof (set_wf_lookup R _ k _ Hw2 Hin (toBinary_content _ _ _ Hk)) as Hl.
    simpl in Hl. rewrite Hget in Hl. by injection Hl. }
  repeat apply conj; auto.
  - unfold BufferSet.size. simpl.
    rewrite <- (Map_set_set (BufferSet.map s) (latin1 bs) a b).
    apply Map_size_set_present, Map_has_set.
  - unfold BufferSet.keys, Map.values. simpl. apply list_elem_of_fmap.
    exists (latin1 bs, b). split; [done|]. by apply Map_get_Some_elem.
Qed.

Lemma set_add_overwrites_witness :
  let s2 := (BufferSet.add demo (VObject 3)
               (BufferSet.add demo (VObject 1) (BufferSet.mk Map.empty)).2).2 in
  BufferSet.keys s2 = [VObject 3] /\ VObject 1 ∉ BufferSet.keys s2.
Proof.
  intros s2.
  pose proof (set_add_overwrites demo (BufferSet.mk Map.empty) (VObject 1) (VObject 3)
                [x02; x03; x04] (set_wf_empty demo) eq_refl eq_refl)
    as (_ & _ & _ & _ & _ & _ & Hn).
  split; [reflexivity | apply Hn; discriminate].
Defined.

Section SetOrder.
Variable R : realm.

Lemma set_insert_fresh ks css this :
  Forall2 (fun k bs => content R k = Some bs) ks css ->
  NoDup css ->
  (forall bs, bs ∈ css -> latin1 bs ∉ Map.keys (BufferSet.map this)) ->
  exists this',
    for_of ks (fun key => BufferSet.add R key) this = (Normal tt, this') /\
    BufferSet.keys this' = BufferSet.keys this ++ ks.
Proof.
  intros Hc. revert this. induction Hc as [|k bs ks css Hk Hc IH]; intros this Hd Hn.
  - exists this. split; [done|]. by rewrite app_nil_r.
  - apply list.NoDup_cons in Hd as [Hbs Hd].
    pose proof (toBinary_content _ _ _ Hk) as E. simpl. unfold bind.
    rewrite (set_add_run _ _ _ _ E).
    assert (Map.has (BufferSet.map this) (latin1 bs) = false) as Hh.
    { apply Map_has_false, Hn. left. }
    apply Map_absent in Hh as (_ & -> & _).
    destruct (IH (BufferSet.mk (BufferSet.map this ++ [(latin1 bs, k)])) Hd)
      as (this' & Hrun & Hent).
    { intros bs' Hin. simpl. rewrite Map_keys_app, elem_of_app.
      intros [Hold|Hnew].
      - revert Hold. apply Hn. by right.
      - apply list_elem_of_singleton in Hnew. apply latin1_inj in Hnew. by subst. }
    exists this'. split; [done|]. rewrite Hent.
    unfold BufferSet.keys, Map.values. simpl. by rewrite fmap_app, <- app_assoc.
Qed.

Lemma set_add_in_place this i k k' bs :
  set_wf R this ->
  BufferSet.keys this !! i = Some k ->
  content R k = Some bs ->
  content R k' = Some bs ->
  BufferSet.keys (BufferSet.add R k' this).2 = <[i := k']> (BufferSet.keys this).
Proof.
  intros [Hd Hf] Hi Hk%toBinary_content Hk'%toBinary_content.
  rewrite (set_add_run _ _ _ _ Hk'). simpl.
  unfold BufferSet.keys, Map.values in *.
  apply list_lookup_fmap_Some_1 in Hi as ([s0 k0] & -> & Hi). simpl in *.
  rewrite list.Forall_forall in Hf.
  pose proof (Hf _ (list_elem_of_lookup_2 _ _ _ Hi)) as Hs. simpl in Hs.
  rewrite Hk in Hs. injection Hs as <-.
  rewrite (Map_set_at _ _ _ _ _ Hd Hi). by rewrite list_fmap_insert.
Qed.

End SetOrder.

(** X6. A BufferSet built by its constructor from keys with pairwise
    distinct contents iterates them in the order given. Adding a key whose
    content is already held, through a new key object, swaps the object at
    that position and moves nothing. *)
Theorem set_iteration_order R (ks : list jsval) (css : list (list byte))
    (s : BufferSet.t) (i : nat) (k k' : jsval) (bs : list byte) :
  Forall2 (fun k c => content R k = Some c) ks css ->
  NoDup css ->
  set_wf R s ->
  BufferSet.keys s !! i = Some k ->
  content R k = Some bs ->
  content R k' = Some bs ->
  (exists s0, BufferSet.new R (Some ks) = Normal s0 /\
              BufferSet.keys s0 = ks /\
              BufferSet.entries s0 = (fun k => (k, k)) <$> ks) /\
  BufferSet.keys (BufferSet.add R k' s).2 = <[i := k']> (BufferSet.keys s).
Proof.
  intros Hc Hd Hw Hi Hk Hk'. split; [|by apply (set_add_in_place R s i k k' bs)].
  destruct (set_insert_fresh R ks css (BufferSet.mk Map.empty) Hc Hd) as (s0 & Hrun & Hks).
  { intros ? _. apply not_elem_of_nil. }
  exists s0. unfold BufferSet.new, BufferSet.constructor, bind, write. rewrite Hrun.
  repeat split; auto. unfold BufferSet.entries. fold (BufferSet.keys s0). by rewrite Hks.
Qed.

Lemma set_iteration_order_witness :
  exists s0,
    BufferSet.new demo (Some [VObject 8; VObject 1; VObject 9]) = Normal s0 /\
    BufferSet.keys s0 = [VObject 8; VObject 1; VObject 9] /\
    BufferSet.keys (BufferSet.add demo (VObject 4) s0).2 = [VObject 8; VObject 4; VObject 9].
Proof.
  set (ks := [VObject 8; VObject 1; VObject 9]).
  set (s := (for_of ks (fun k => BufferSet.add demo k) (BufferSet.mk Map.empty)).2).
  assert (Forall2 (fun k c => content demo k = Some c) ks
            [[x00]; [x02; x03; x04]; [x05]]) as Hc by (repeat constructor).
  assert (NoDup [[x00]; [x02; x03; x04]; [x05]]) as Hd
      by (apply (bool_decide_unpack _); vm_compute; exact I).
  assert (set_wf demo s) as Hw.
  { apply (for_of_invariant (set_wf demo)); [|apply set_wf_empty].
    intros x s0 Hs. by apply set_wf_add. }
  pose proof (set_iteration_order demo ks _ s 1 (VObject 1) (VObject 4)
                [x02; x03; x04] Hc Hd Hw eq_refl eq_refl eq_refl)
    as ((s0 & Hn & Hk & _) & Hs).
  exists s0. split; [exact Hn|]. split; [exact Hk|].
  assert (s0 = s) as -> by (vm_compute in Hn; by injection Hn as <-).
  exact Hs.
Defined.

(** ** Iteration and lookup *)

Section Lookup.
Variable R : realm.

Lemma map_entry_item this k v :
  (k, v) ∈ BufferMap.entries this ->
  exists s, (s, mkBufferItem k v) ∈ BufferMap.map this.
Proof.
  unfold BufferMap.entries, Map.values. intros Hin.
  apply list_elem_of_fmap in Hin as (item & [= -> ->] & Hin).
  apply list_elem_of_fmap in Hin as ([s item'] & -> & Hin).
  exists s. by destruct item'.
Qed.

Lemma map_item_entry this s item :
  (s, item) ∈ BufferMap.map this -> (key item, value item) ∈ BufferMap.entries this.
Proof.
  intros Hin. unfold BufferMap.entries, Map.values.
  apply list_elem_of_fmap. exists item. split; [done|].
  apply list_elem_of_fmap. by exists (s, item).
Qed.

Lemma map_wf_entry_key this s item :
  map_wf R this -> (s, item) ∈ BufferMap.map this -> toBinary R (key item) = Normal s.
Proof.
  intros [_ Hf] Hin. rewrite list.Forall_forall in Hf. exact (Hf _ Hin).
Qed.

Lemma set_wf_entry_key this s k :
  set_wf R this -> (s, k) ∈ BufferSet.map this -> toBinary R k = Normal s.
Proof.
  intros [_ Hf] Hin. rewrite list.Forall_forall in Hf. exact (Hf _ Hin).
Qed.

End Lookup.

(** X7. Whatever a well-formed container iterates can be looked up again:
    for every pair [(k, v)] that [entries()] of a BufferMap yields,
    [has(k)] is true and [get(k)] returns [v]; for every key a BufferSet
    yields, [has] is true. *)
Theorem iterated_entries_found R (m : BufferMap.t) (s : BufferSet.t) (k v k' : jsval) :
  map_wf R m ->
  set_wf R s ->
  (k, v) ∈ BufferMap.entries m ->
  k' ∈ BufferSet.keys s ->
  BufferMap.get R k m = (Normal v, m) /\
  BufferMap.has R k m = (Normal true, m) /\
  BufferSet.has R k' s = (Normal true, s).
Proof.
  intros Hm Hs Hin Hin'.
  destruct (map_entry_item _ _ _ Hin) as [c Hc].
  pose proof (map_wf_entry_key R _ _ _ Hm Hc) as E. simpl in E.
  pose proof (Map_get_elem _ _ _ (proj1 Hm) Hc) as Hg.
  rewrite (map_get_run _ _ _ _ E), (map_has_run _ _ _ _ E), Hg. simpl.
  assert (Map.has (BufferMap.map m) c = true) as -> by (apply Map_has_get; eauto).
  repeat split.
  unfold BufferSet.keys, Map.values in Hin'.
  apply list_elem_of_fmap in Hin' as ([c' k0] & -> & Hin'). simpl.
  pose proof (set_wf_entry_key R _ _ _ Hs Hin') as E'.
  rewrite (set_has_run _ _ _ _ E').
  assert (Map.has (BufferSet.map s) c' = true) as ->; [|done].
  apply Map_has_get. rewrite (Map_get_elem _ _ _ (proj1 Hs) Hin'). eauto.
Qed.

Lemma iterated_entries_found_witness :
  let m := (for_of [Insert (VObject 8) (VNumber 1); Insert (VObject 1) (VNumber 2)]
              (map_step demo) (BufferMap.mk Map.empty)).2 in
  let s := (for_of [Insert (VObject 8) VNull; Insert (VObject 1) VNull]
              (set_step demo) (BufferSet.mk Map.empty)).2 in
  BufferMap.get demo (VObject 1) m = (Normal (VNumber 2), m) /\
  BufferSet.has demo (VObject 8) s = (Normal true, s).
Proof.
  intros m s.
  assert ((VObject 1, VNumber 2) ∈ BufferMap.entries m) as H1 by (right; left).
  assert (VObject 8 ∈ BufferSet.keys s) as H2 by left.
  pose proof (iterated_entries_found demo m s (VObject 1) (VNumber 2) (VObject 8)
                (map_wf_reachable demo _) (set_wf_reachable demo _) H1 H2)
    as (Hg & _ & Hh).
  split; [exact Hg | exact Hh].
Defined.

(** X8. In a well-formed container [has(k)] is true exactly when some
    iterated key has the canonical key of [k]; on a BufferMap, [get(k)]
    then returns the value iterated beside that key. *)
Theorem has_iff_iterated R (m : BufferMap.t) (s : BufferSet.t) (k : jsval) (bs : list byte) :
  map_wf R m ->
  set_wf R s ->
  content R k = Some bs ->
  ((BufferMap.has R k m).1 = Normal true <->
   exists k' v, (k', v) ∈ BufferMap.entries m /\
                toBinary R k' = toBinary R k /\
                (BufferMap.get R k m).1 = Normal v) /\
  ((BufferSet.has R k s).1 = Normal true <->
   exists k', k' ∈ BufferSet.keys s /\ toBinary R k' = toBinary R k).
Proof.
  intros Hm Hs E%toBinary_content.
  rewrite (map_has_run _ _ _ _ E), (map_get_run _ _ _ _ E), (set_has_run _ _ _ _ E).
  simpl. split; split.
  - intros [= Hh]. apply Map_has_get in Hh as [item Hg].
    pose proof (Map_get_Some_elem _ _ _ Hg) as Hin.
    exists (key item), (value item). rewrite Hg. simpl.
    split; [by apply (map_item_entry _ (latin1 bs))|].
    split; [|done]. rewrite E. by apply (map_wf_entry_key R m).
  - intros (k' & v & Hin & Ek & _). destruct (map_entry_item _ _ _ Hin) as [c Hc].
    pose proof (map_wf_entry_key R _ _ _ Hm Hc) as E'. simpl in E'.
    rewrite Ek, E in E'. injection E' as <-. f_equal.
    apply Map_has_elem. apply list_elem_of_fmap. by exists (latin1 bs, mkBufferItem k' v).
  - intros [= Hh]. apply Map_has_get in Hh as [k' Hg].
    pose proof (Map_get_Some_elem _ _ _ Hg) as Hin.
    exists k'. split.
    + unfold BufferSet.keys, Map.values. apply list_elem_of_fmap.
      by exists (latin1 bs, k').
    + rewrite E. by apply (set_wf_entry_key R s).
  - intros (k' & Hin & Ek). unfold BufferSet.keys, Map.values in Hin.
    apply list_elem_of_fmap in Hin as ([c k0] & -> & Hin). simpl in Ek.
    pose proof (set_wf_entry_key R _ _ _ Hs Hin) as E'.
    rewrite Ek, E in E'. injection E' as <-. f_equal.
    apply Map_has_elem. apply list_elem_of_fmap. by exists (latin1 bs, k0).
Qed.

Lemma has_iff_iterated_witness :
  let m := (for_of [Insert (VObject 8) (VNumber 1); Insert (VObject 1) (VNumber 2)]
              (map_step demo) (BufferMap.mk Map.empty)).2 in
  (BufferMap.has demo (VObject 4) m).1 = Normal true /\
  (BufferMap.has demo (VObject 5) m).1 = Normal false.
Proof.
  intros m.
  pose proof (has_iff_iterated demo m (BufferSet.mk Map.empty) (VObject 4) [x02; x03; x04]
                (map_wf_reachable demo _) (set_wf_empty demo) eq_refl) as [[_ H1] _].
  split; [|reflexivity].
  apply H1. exists (VObject 1), (VNumber 2). split; [right; left | split; reflexivity].
Defined.

(** ** How the operations compose *)

(** X9. A second [set] on the same content supersedes the first
    entirely: it leaves the very state it would have left had the first
    [set] not happened (so a repeated [set] is idempotent). The same holds
    for [add] on a BufferSet. *)
Theorem set_supersedes R (m : BufferMap.t) (s : BufferSet.t) (a b v1 v2 : jsval)
    (bs : list byte) :
  content R a = Some bs ->
  content R b = Some bs ->
  BufferMap.set R b v2 (BufferMap.set R a v1 m).2 = BufferMap.set R b v2 m /\
  BufferSet.add R b (BufferSet.add R a s).2 = BufferSet.add R b s.
Proof.
  intros Ea%toBinary_content Eb%toBinary_content.
  rewrite (map_set_run _ _ _ _ _ Ea), (set_add_run _ _ _ _ Ea). simpl.
  rewrite !(map_set_run _ _ _ _ _ Eb), !(set_add_run _ _ _ _ Eb). simpl.
  by rewrite !Map_set_set.
Qed.

Lemma set_supersedes_witness :
  let m := BufferMap.mk Map.empty in
  BufferMap.set demo (VObject 3) (VNumber 2) (BufferMap.set demo (VObject 1) (VNumber 1) m).2
  = BufferMap.set demo (VObject 3) (VNumber 2) m.
Proof.
  exact (proj1 (set_supersedes demo (BufferMap.mk Map.empty) (BufferSet.mk Map.empty)
                  (VObject 1) (VObject 3) (VNumber 1) (VNumber 2) [x02; x03; x04]
                  eq_refl eq_refl)).
Defined.

(** X10. Inserting a content that is absent and deleting it again, through
    any content-equal key, returns true and restores the container to the
    state it had before the insertion. *)
Theorem insert_delete_restores R (m : BufferMap.t) (s : BufferSet.t) (a b v : jsval)
    (bs : list byte) :
  content R a = Some bs ->
  content R b = Some bs ->
  (BufferMap.has R a m).1 = Normal false ->
  (BufferSet.has R a s).1 = Normal false ->
  BufferMap.delete R b (BufferMap.set R a v m).2 = (Normal true, m) /\
  BufferSet.delete R b (BufferSet.add R a s).2 = (Normal true, s).
Proof.
  intros Ea%toBinary_content Eb%toBinary_content.
  rewrite (map_has_run _ _ _ _ Ea), (set_has_run _ _ _ _ Ea). simpl.
  intros [= Hm] [= Hs].
  rewrite (map_set_run _ _ _ _ _ Ea), (set_add_run _ _ _ _ Ea). simpl.
  rewrite (map_delete_run _ _ _ _ Eb), (set_delete_run _ _ _ _ Eb). simpl.
  rewrite (Map_delete_set_absent _ _ _ Hm), (Map_delete_set_absent _ _ _ Hs). simpl.
  by destruct m, s.
Qed.

Lemma insert_delete_restores_witness :
  let m := (BufferMap.set demo (VObject 8) (VNumber 1) (BufferMap.mk Map.empty)).2 in
  BufferMap.delete demo (VObject 4) (BufferMap.set demo (VObject 1) (VNumber 2) m).2
  = (Normal true, m).
Proof.
  exact (proj1 (insert_delete_restores demo
                  (BufferMap.set demo (VObject 8) (VNumber 1) (BufferMap.mk Map.empty)).2
                  (BufferSet.mk Map.empty) (VObject 1) (VObject 4) (VNumber 2)
                  [x02; x03; x04] eq_refl eq_refl eq_refl eq_refl)).
Defined.

(** X11. Deleting a present content and setting it again does not put
    the entry back where it was: the new entry is iterated last, after all
    the entries that remained. *)
Theorem delete_then_set_appends R (m : BufferMap.t) (a b v : jsval) (bs : list byte) :
  map_wf R m ->
  content R a = Some bs ->
  content R b = Some bs ->
  (BufferMap.has R a m).1 = Normal true ->
  let m1 := (BufferMap.delete R a m).2 in
  let m2 := (BufferMap.set R b v m1).2 in
  BufferMap.entries m2 = BufferMap.entries m1 ++ [(b, v)] /\
  BufferMap.size m2 = BufferMap.size m /\
  exists l1 e l2,
    BufferMap.entries m = l1 ++ e :: l2 /\
    toBinary R e.1 = toBinary R a /\
    BufferMap.entries m2 = l1 ++ l2 ++ [(b, v)].
Proof.
  intros Hw Ha Hb. pose proof (toBinary_content _ _ _ Ha) as Ea.
  pose proof (toBinary_content _ _ _ Hb) as Eb.
  rewrite (map_has_run _ _ _ _ Ea). simpl. intros [= Hh].
  destruct (map_delete_present R m a _ Hw Ea Hh) as (_ & Hsz & _ & l1 & e & l2 & He & Hk & Hd).
  revert Hsz Hd. rewrite (map_delete_run _ _ _ _ Ea). simpl.
  rewrite (map_set_run _ _ _ _ _ Eb). simpl. intros Hsz Hd.
  pose proof (Map_delete_gone _ (latin1 bs) (proj1 Hw)) as Hgone.
  apply Map_absent in Hgone as (_ & Hset & _). rewrite Hset.
  assert (BufferMap.entries
            (BufferMap.mk ((Map.delete (BufferMap.map m) (latin1 bs)).2
                           ++ [(latin1 bs, mkBufferItem b v)]))
          = BufferMap.entries (BufferMap.mk (Map.delete (BufferMap.map m) (latin1 bs)).2)
            ++ [(b, v)]) as Happ by apply map_entries_app.
  repeat apply conj; auto.
  - rewrite Hsz. unfold BufferMap.size, Map.size. simpl. rewrite length_app. simpl. lia.
  - exists l1, e, l2. repeat split; auto. rewrite Happ, Hd. by rewrite <- app_assoc.
Qed.

Lemma delete_then_set_appends_witness :
  let m := (for_of [Insert (VObject 1) (VNumber 1); Insert (VObject 8) (VNumber 2)]
              (map_step demo) (BufferMap.mk Map.empty)).2 in
  BufferMap.keys m = [VObject 1; VObject 8] /\
  BufferMap.entries (BufferMap.set demo (VObject 3) (VNumber 3)
                       (BufferMap.delete demo (VObject 1) m).2).2
  = [(VObject 8, VNumber 2); (VObject 3, VNumber 3)].
Proof.
  intros m. split; [reflexivity|].
  destruct (delete_then_set_appends demo m (VObject 1) (VObject 3) (VNumber 3)
              [x02; x03; x04] (map_wf_reachable demo _) eq_refl eq_refl eq_refl)
    as (-> & _).
  reflexivity.
Defined.

(** X12. [delete] reaches one content only: deleting [a] leaves [get] and
    [has] of every key with other bytes as they were, whether or not [a]
    was present; and in a well-formed map the deleted content is gone,
    [has(a)] being false and [get(a)] [undefined] afterwards. *)
Theorem delete_is_local R (m : BufferMap.t) (s : BufferSet.t) (a b : jsval)
    (bsa bsb : list byte) :
  map_wf R m ->
  content R a = Some bsa ->
  content R b = Some bsb ->
  bsa ≠ bsb ->
  let m' := (BufferMap.delete R a m).2 in
  let s' := (BufferSet.delete R a s).2 in
  (BufferMap.get R b m').1 = (BufferMap.get R b m).1 /\
  (BufferMap.has R b m').1 = (BufferMap.has R b m).1 /\
  (BufferSet.has R b s').1 = (BufferSet.has R b s).1 /\
  BufferMap.has R a m' = (Normal false, m') /\
  BufferMap.get R a m' = (Normal VUndefined, m').
Proof.
  intros Hw Ea%toBinary_content Eb%toBinary_content Hne.
  assert (latin1 bsa ≠ latin1 bsb) as Hs by (by intros ?%latin1_inj).
  simpl. rewrite (map_delete_run _ _ _ _ Ea), (set_delete_run _ _ _ _ Ea). simpl.
  rewrite !(map_get_run _ _ _ _ Eb), !(map_has_run _ _ _ _ Eb), !(set_has_run _ _ _ _ Eb).
  rewrite (map_get_run _ _ _ _ Ea), (map_has_run _ _ _ _ Ea). simpl.
  rewrite Map_get_delete_ne, !Map_has_delete_ne by done.
  pose proof (Map_delete_gone _ (latin1 bsa) (proj1 Hw)) as Hgone. rewrite Hgone.
  apply Map_absent in Hgone as (-> & _). by repeat split.
Qed.

Lemma delete_is_local_witness :
  let m := (for_of [Insert (VObject 1) (VNumber 1); Insert (VObject 8) (VNumber 2)]
              (map_step demo) (BufferMap.mk Map.empty)).2 in
  (BufferMap.get demo (VObject 8) (BufferMap.delete demo (VObject 4) m).2).1
  = Normal (VNumber 2).
Proof.
  intros m.
  destruct (delete_is_local demo m (BufferSet.mk Map.empty) (VObject 4) (VObject 8)
              [x02; x03; x04] [x00] (map_wf_reachable demo _) eq_refl eq_refl)
    as (-> & _); [discriminate | reflexivity].
Defined.

(** ** The constructors *)

Section Constructors.
Variable R : realm.

Lemma Map_size_set_le {V} (m : Map.t V) k v : Map.size (Map.set m k v) <= S (Map.size m).
Proof.
  destruct (Map.has m k) eqn:E.
  - rewrite (Map_size_set_present _ _ _ E). lia.
  - apply Map_absent in E as (_ & -> & _). unfold Map.size. rewrite length_app. simpl. lia.
Qed.

Lemma Map_has_set_mono {V} (m : Map.t V) k k' v :
  Map.has m k' = true -> Map.has (Map.set m k v) k' = true.
Proof.
  intros Hh. destruct (decide (k = k')) as [->|Hne].
  - apply Map_has_set.
  - by rewrite Map_has_set_ne.
Qed.

Lemma map_inserts_run pairs this :
  Forall (fun p => is_Some (content R p.1)) pairs ->
  exists this',
    for_of pairs (fun '(key, value) => BufferMap.set R key value) this = (Normal tt, this') /\
    BufferMap.size this' <= BufferMap.size this + length pairs /\
    (forall c, Map.has (BufferMap.map this) c = true ->
               Map.has (BufferMap.map this') c = true) /\
    (forall p, p ∈ pairs -> (BufferMap.has R p.1 this').1 = Normal true).
Proof.
  intros Hc. revert this. induction Hc as [|[k v] pairs [bs Hk] Hc IH]; intros this.
  - exists this. repeat split; auto; [simpl; lia | by intros ? ?%elem_of_nil].
  - simpl in Hk. pose proof (toBinary_content _ _ _ Hk) as E. simpl. unfold bind.
    rewrite (map_set_run _ _ _ _ _ E).
    destruct (IH (BufferMap.mk (Map.set (BufferMap.map this) (latin1 bs) (mkBufferItem k v))))
      as (this' & Hrun & Hsz & Hmono & Hin).
    exists this'. repeat split; auto.
    + pose proof (Map_size_set_le (BufferMap.map this) (latin1 bs) (mkBufferItem k v)).
      unfold BufferMap.size in *. simpl in *. lia.
    + intros c Hc'. apply Hmono. simpl. by apply Map_has_set_mono.
    + intros p [->|Hp]%elem_of_cons; [|by apply Hin]. simpl.
      rewrite (map_has_run _ _ _ _ E). simpl. f_equal. apply Hmono. simpl.
      apply Map_has_set.
Qed.

Lemma set_inserts_run ks this :
  Forall (fun k => is_Some (content R k)) ks ->
  exists this',
    for_of ks (fun key => BufferSet.add R key) this = (Normal tt, this') /\
    BufferSet.size this' <= BufferSet.size this + length ks /\
    (forall c, Map.has (BufferSet.map this) c = true ->
               Map.has (BufferSet.map this') c = true) /\
    (forall k, k ∈ ks -> (BufferSet.has R k this').1 = Normal true).
Proof.
  intros Hc. revert this. induction Hc as [|k ks [bs Hk] Hc IH]; intros this.
  - exists this. repeat split; auto; [simpl; lia | by intros ? ?%elem_of_nil].
  - pose proof (toBinary_content _ _ _ Hk) as E. simpl. unfold bind.
    rewrite (set_add_run _ _ _ _ E).
    destruct (IH (BufferSet.mk (Map.set (BufferSet.map this) (latin1 bs) k)))
      as (this' & Hrun & Hsz & Hmono & Hin).
    exists this'. repeat split; auto.
    + pose proof (Map_size_set_le (BufferSet.map this) (latin1 bs) k).
      unfold BufferSet.size in *. simpl in *. lia.
    + intros c Hc'. apply Hmono. simpl. by apply Map_has_set_mono.
    + intros p [->|Hp]%elem_of_cons; [|by apply Hin].
      rewrite (set_has_run _ _ _ _ E). simpl. f_equal. apply Hmono. simpl.
      apply Map_has_set.
Qed.

End Constructors.

(** X13. What the constructors do with their argument. Without one (or
    with null) the container is empty. With an iterable whose keys are all
    byte-bearing the constructor succeeds; the container is well formed,
    holds every key given and has at most as many entries as the iterable
    has elements. If a key that is not byte-bearing follows byte-bearing
    ones, the constructor throws the TypeError and yields no container. *)
Theorem constructor_outcomes R (pairs l1 l2 : list (jsval * jsval)) (bad v : jsval) :
  Forall (fun p => is_Some (content R p.1)) pairs ->
  Forall (fun p => is_Some (content R p.1)) l1 ->
  byte_bearing R bad = false ->
  let e := TypeError "Non-buffer passed to buffer map/set." in
  BufferMap.new R None = Normal (BufferMap.mk Map.empty) /\
  BufferSet.new R None = Normal (BufferSet.mk Map.empty) /\
  (exists m, BufferMap.new R (Some pairs) = Normal m /\
             map_wf R m /\
             BufferMap.size m <= length pairs /\
             forall p, p ∈ pairs -> (BufferMap.has R p.1 m).1 = Normal true) /\
  (exists s, BufferSet.new R (Some pairs.*1) = Normal s /\
             set_wf R s /\
             BufferSet.size s <= length pairs /\
             forall p, p ∈ pairs -> (BufferSet.has R p.1 s).1 = Normal true) /\
  BufferMap.new R (Some (l1 ++ (bad, v) :: l2)) = Throw e /\
  BufferSet.new R (Some (l1.*1 ++ bad :: l2.*1)) = Throw e.
Proof.
  intros Hp Hl Hbad%toBinary_reject. simpl. repeat apply conj; try reflexivity.
  - destruct (map_inserts_run R pairs (BufferMap.mk Map.empty) Hp) as (m & Hrun & Hsz & _ & Hin).
    exists m. rewrite map_new_run, Hrun. split; [done|].
    split; [|split; [simpl in Hsz; lia | exact Hin]].
    pose proof (for_of_invariant (map_wf R)
                  (fun '(key, value) => BufferMap.set R key value) pairs
                  (BufferMap.mk Map.empty)) as Hinv.
    rewrite Hrun in Hinv. apply Hinv; [|apply map_wf_empty].
    intros [k0 v0] s0. apply map_wf_set.
  - assert (Forall (fun k => is_Some (content R k)) pairs.*1) as Hp' by (by apply Forall_fmap).
    destruct (set_inserts_run R pairs.*1 (BufferSet.mk Map.empty) Hp')
      as (s & Hrun & Hsz & _ & Hin).
    exists s. unfold BufferSet.new, BufferSet.constructor, bind, write. rewrite Hrun.
    split; [done|]. split; [|split].
    + pose proof (for_of_invariant (set_wf R) (fun key => BufferSet.add R key) pairs.*1
                    (BufferSet.mk Map.empty)) as Hinv.
      rewrite Hrun in Hinv. apply Hinv; [|apply set_wf_empty].
      intros k0 s0. apply set_wf_add.
    + rewrite length_fmap in Hsz. simpl in Hsz. lia.
    + intros p Hpin. apply Hin. apply list_elem_of_fmap. by exists p.
  - destruct (map_inserts_run R l1 (BufferMap.mk Map.empty) Hl) as (m & Hrun & _).
    rewrite map_new_run, (for_of_app _ _ _ _ _ Hrun). simpl. unfold bind.
    unfold BufferMap.set. by rewrite (map_reject _ _ _ _ _ Hbad).
  - assert (Forall (fun k => is_Some (content R k)) l1.*1) as Hl' by (by apply Forall_fmap).
    destruct (set_inserts_run R l1.*1 (BufferSet.mk Map.empty) Hl') as (s & Hrun & _).
    unfold BufferSet.new, BufferSet.constructor, bind at 1, write.
    rewrite (for_of_app _ _ _ _ _ Hrun). simpl. unfold bind.
    unfold BufferSet.add. by rewrite (set_reject _ _ _ _ _ Hbad).
Qed.

Lemma constructor_outcomes_witness :
  (exists m, BufferMap.new demo (Some [(VObject 1, VNull); (VObject 3, VNull)]) = Normal m /\
             BufferMap.size m <= 2) /\
  BufferMap.new demo (Some [(VObject 1, VNull); (VObject 7, VNull); (VObject 3, VNull)])
  = Throw (TypeError "Non-buffer passed to buffer map/set.").
Proof.
  assert (Forall (fun p : jsval * jsval => is_Some (content demo p.1))
            [(VObject 1, VNull); (VObject 3, VNull)]) as H2
      by (repeat constructor; by eexists).
  assert (Forall (fun p : jsval * jsval => is_Some (content demo p.1))
            [(VObject 1, VNull)]) as H1
      by (repeat constructor; by eexists).
  destruct (constructor_outcomes demo _ _ [(VObject 3, VNull)] (VObject 7) VNull H2 H1 eq_refl)
    as (_ & _ & (m & Hm & _ & Hsz & _) & _ & Hthrow & _).
  split; [by exists m | exact Hthrow].
Defined.

(** ** The iterators *)

Lemma zip_fmap_pair {A B C} (f : A -> B) (g : A -> C) (l : list A) :
  zip (f <$> l) (g <$> l) = (fun x => (f x, g x)) <$> l.
Proof. induction l as [|x l IH]; simpl; [done | by f_equal]. Qed.

(** X14. The iterators of a container go through the same entries in the
    same order: [entries()] of a BufferMap pairs what [keys()] and
    [values()] yield position by position, each yields [size] elements,
    and iterating the map itself is [entries()]. On a BufferSet [keys()],
    [values()] and iterating the set itself coincide, [entries()] yields
    each key paired with itself, and there are [size] of them. *)
Theorem iterators_agree (m : BufferMap.t) (s : BufferSet.t) :
  BufferMap.entries m = zip (BufferMap.keys m) (BufferMap.values m) /\
  BufferMap.iterator m = BufferMap.entries m /\
  length (BufferMap.keys m) = BufferMap.size m /\
  length (BufferMap.values m) = BufferMap.size m /\
  length (BufferMap.entries m) = BufferMap.size m /\
  BufferSet.values s = BufferSet.keys s /\
  BufferSet.iterator s = BufferSet.keys s /\
  BufferSet.entries s = zip (BufferSet.keys s) (BufferSet.keys s) /\
  length (BufferSet.keys s) = BufferSet.size s.
Proof.
  unfold BufferMap.entries, BufferMap.keys, BufferMap.values, BufferMap.iterator,
    BufferMap.size, BufferSet.entries, BufferSet.keys, BufferSet.values, BufferSet.iterator,
    BufferSet.size, Map.size, Map.values.
  rewrite !length_fmap. repeat apply conj; try reflexivity.
  - by rewrite zip_fmap_pair.
  - by rewrite <- (list_fmap_id (BufferSet.map s).*2) at 2 3; rewrite zip_fmap_pair.
Qed.

(** ** The inspector views *)

Section Inspector.
Variable R : realm.

Lemma canonical_hex_latin1 bs : canonical_hex (latin1 bs) = hex_string bs.
Proof. unfold canonical_hex. by rewrite from_latin1_latin1. Qed.

Lemma toBinary_Normal_inv k s :
  toBinary R k = Normal s ->
  exists bs, s = latin1 bs /\ toHex R k = Normal (canonical_hex s).
Proof.
  unfold toBinary, toHex. rewrite !encode_key_bytes.
  destruct (key_bytes R k) as [bs|e]; [|discriminate].
  intros [= <-]. exists bs. by rewrite canonical_hex_latin1.
Qed.

Lemma canonical_hex_NoDup (l : list jsstring) :
  (forall s, s ∈ l -> exists bs, s = latin1 bs) ->
  NoDup l -> NoDup (canonical_hex <$> l).
Proof.
  intros Hl. apply NoDup_fmap_2_strong.
  intros s s' [bs ->]%Hl [bs' ->]%Hl. rewrite !canonical_hex_latin1.
  by intros ->%hex_string_inj.
Qed.

Lemma map_custom_loop (entries : Map.t BufferItem) (out : Map.t jsval) :
  (forall e, e ∈ entries -> toHex R (key e.2) = Normal (canonical_hex e.1)) ->
  NoDup (Map.keys out ++ (canonical_hex <$> Map.keys entries)) ->
  for_of (Map.values entries)
    (fun item =>
       let* k := lift (toHex R (key item)) in
       let* out := read in
       write (Map.set out k (value item))) out
  = (Normal tt, out ++ ((fun e => (canonical_hex e.1, value e.2)) <$> entries)).
Proof.
  revert out. induction entries as [|[c item] entries IH]; intros out Hhex Hd.
  - simpl. by rewrite app_nil_r.
  - pose proof (Hhex (c, item) ltac:(left)) as E. simpl in E.
    simpl. unfold bind at 1. unfold bind at 1, lift.
    rewrite E. simpl. unfold bind at 1, read, write.
    assert (Map.has out (canonical_hex c) = false) as Hh.
    { apply Map_has_false. unfold Map.keys in *. simpl in Hd.
      apply list.NoDup_app in Hd as (_ & Hd & _). intros Hin. apply (Hd _ Hin). left. }
    apply Map_absent in Hh as (_ & -> & _).
    rewrite IH.
    + by rewrite <- app_assoc.
    + intros e He. apply Hhex. by right.
    + unfold Map.keys in *. simpl in Hd. rewrite fmap_app. simpl.
      by rewrite <- app_assoc.
Qed.

Lemma set_custom_loop (entries : Map.t jsval) (out : list jsstring) :
  (forall e, e ∈ entries -> toHex R e.2 = Normal (canonical_hex e.1)) ->
  NoDup (out ++ (canonical_hex <$> Map.keys entries)) ->
  for_of (Map.values entries)
    (fun key =>
       let* k := lift (toHex R key) in
       let* out := read in
       write (HostSet.add out k)) out
  = (Normal tt, out ++ (canonical_hex <$> Map.keys entries)).
Proof.
  revert out. induction entries as [|[c k0] entries IH]; intros out Hhex Hd.
  - simpl. by rewrite app_nil_r.
  - pose proof (Hhex (c, k0) ltac:(left)) as E. simpl in E.
    simpl. unfold bind at 1. unfold bind at 1, lift.
    rewrite E. simpl. unfold bind at 1, read, write.
    assert (HostSet.add out (canonical_hex c) = out ++ [canonical_hex c]) as ->.
    { unfold HostSet.add. rewrite decide_False; [done|].
      unfold Map.keys in *. simpl in Hd.
      apply list.NoDup_app in Hd as (_ & Hd & _). intros Hin. apply (Hd _ Hin). left. }
    rewrite IH.
    + unfold Map.keys. simpl. by rewrite <- app_assoc.
    + intros e He. apply Hhex. by right.
    + unfold Map.keys in *. simpl in Hd. by rewrite <- app_assoc.
Qed.

End Inspector.

(** X15. The inspector view of a well-formed container never throws and
    loses nothing. For a BufferMap it is a host Map that lists, in
    iteration order, the hex string of every key with that key's value,
    no two hex strings being equal, so it has [size] entries. For a
    BufferSet it is a host Set of the hex strings of the keys, in
    iteration order and again [size] of them. *)
Theorem inspector_views R (m : BufferMap.t) (s : BufferSet.t) :
  map_wf R m ->
  set_wf R s ->
  (exists view,
     BufferMap.custom R m = Normal view /\
     Map.values view = BufferMap.values m /\
     Forall2 (fun k hk => toHex R k = Normal hk) (BufferMap.keys m) (Map.keys view) /\
     NoDup (Map.keys view) /\
     Map.size view = BufferMap.size m) /\
  (exists view,
     BufferSet.custom R s = Normal view /\
     Forall2 (fun k hk => toHex R k = Normal hk) (BufferSet.keys s) view /\
     NoDup view /\
     length view = BufferSet.size s).
Proof.
  intros [Hdm Hfm] [Hds Hfs]. rewrite list.Forall_forall in Hfm.
  rewrite list.Forall_forall in Hfs. split.
  - assert (Hhex : forall e, e ∈ BufferMap.map m ->
                     toHex R (key e.2) = Normal (canonical_hex e.1)).
    { intros e He. by destruct (toBinary_Normal_inv R _ _ (Hfm e He)) as (bs & _ & ->). }
    assert (Hnd : NoDup (canonical_hex <$> Map.keys (BufferMap.map m))).
    { apply canonical_hex_NoDup; [|done]. intros c Hc. unfold Map.keys in Hc.
      apply list_elem_of_fmap in Hc as (e & -> & He).
      destruct (toBinary_Normal_inv R _ _ (Hfm e He)) as (bs & Hbs & _). by exists bs. }
    exists ((fun e => (canonical_hex e.1, value e.2)) <$> BufferMap.map m).
    unfold BufferMap.custom. rewrite (map_custom_loop R _ Map.empty Hhex Hnd). simpl.
    unfold BufferMap.values, BufferMap.keys, BufferMap.size in *.
    unfold Map.values, Map.keys, Map.size in *.
    split; [done|]. split; [|split; [|split]].
    + by rewrite <- !list_fmap_compose.
    + rewrite <- !list_fmap_compose.
      apply Forall2_fmap, Forall_Forall2_diag, list.Forall_forall. intros e He. simpl.
      by apply Hhex.
    + rewrite <- list_fmap_compose in Hnd. by rewrite <- list_fmap_compose.
    + by rewrite length_fmap.
  - assert (Hhex : forall e, e ∈ BufferSet.map s ->
                     toHex R e.2 = Normal (canonical_hex e.1)).
    { intros e He. by destruct (toBinary_Normal_inv R _ _ (Hfs e He)) as (bs & _ & ->). }
    assert (Hnd : NoDup (canonical_hex <$> Map.keys (BufferSet.map s))).
    { apply canonical_hex_NoDup; [|done]. intros c Hc. unfold Map.keys in Hc.
      apply list_elem_of_fmap in Hc as (e & -> & He).
      destruct (toBinary_Normal_inv R _ _ (Hfs e He)) as (bs & Hbs & _). by exists bs. }
    exists (canonical_hex <$> Map.keys (BufferSet.map s)).
    unfold BufferSet.custom. rewrite (set_custom_loop R _ HostSet.empty Hhex Hnd). simpl.
    unfold BufferSet.keys, BufferSet.size in *.
    unfold Map.values, Map.keys, Map.size in *.
    split; [done|]. split; [|split].
    + rewrite <- !list_fmap_compose.
      apply Forall2_fmap, Forall_Forall2_diag, list.Forall_forall. intros e He. simpl.
      by apply Hhex.
    + done.
    + by rewrite !length_fmap.
Qed.

Lemma inspector_views_witness :
  BufferMap.custom demo
    (for_of [Insert (VObject 8) (VNumber 1); Insert (VObject 1) (VNumber 2)]
       (map_step demo) (BufferMap.mk Map.empty)).2
  = Normal [([48; 48]%N, VNumber 1); ([48; 50; 48; 51; 48; 52]%N, VNumber 2)].
Proof.
  destruct (inspector_views demo _ (BufferSet.mk Map.empty)
              (map_wf_reachable demo
                 [Insert (VObject 8) (VNumber 1); Insert (VObject 1) (VNumber 2)])
              (set_wf_empty demo)) as [(view & Hv & _) _].
  rewrite Hv. vm_compute in Hv. by injection Hv as <-.
Defined.

(** ** The earlier BufferMap *)

Section LegacyFacts.
Variable R : realm.

Lemma Buffer_from_binary_latin1 bs : Legacy.Buffer_from_binary (latin1 bs) = bs.
Proof.
  unfold Legacy.Buffer_from_binary, latin1. rewrite <- list_fmap_compose.
  rewrite <- (list_fmap_id bs) at 2. apply list_fmap_ext. intros i b _. simpl.
  pose proof (Byte.to_N_bounded b). rewrite N.mod_small by lia.
  by rewrite Byte.of_to_N.
Qed.

Lemma legacy_toKey_toBinary k :
  is_Some (as_Buffer R k) -> Legacy.toKey R k = toBinary R k.
Proof.
  intros [v Hv]. unfold Legacy.toKey, toBinary, encode. by rewrite Hv.
Qed.

Lemma legacy_toKey_content k bs :
  is_Some (as_Buffer R k) -> content R k = Some bs -> Legacy.toKey R k = Normal (latin1 bs).
Proof. intros Hb Hc. rewrite (legacy_toKey_toBinary _ Hb). by apply toBinary_content. Qed.

Lemma legacy_get_run k c this :
  Legacy.toKey R k = Normal c ->
  Legacy.get R k this = (Normal (default VUndefined (Map.get (Legacy.map this) c)), this).
Proof. intros E. unfold Legacy.get, bind, lift, read. by rewrite E. Qed.

Lemma legacy_has_run k c this :
  Legacy.toKey R k = Normal c ->
  Legacy.has R k this = (Normal (Map.has (Legacy.map this) c), this).
Proof. intros E. unfold Legacy.has, bind, lift, read. by rewrite E. Qed.

Lemma legacy_set_run k v c this :
  Legacy.toKey R k = Normal c ->
  Legacy.set R k v this = (Normal tt, Legacy.mk (Map.set (Legacy.map this) c v)).
Proof. intros E. unfold Legacy.set, bind, lift, read. by rewrite E. Qed.

Lemma legacy_delete_run k c this :
  Legacy.toKey R k = Normal c ->
  Legacy.delete R k this =
    (Normal (Map.delete (Legacy.map this) c).1, Legacy.mk (Map.delete (Legacy.map this) c).2).
Proof.
  intros E. unfold Legacy.delete, bind, lift, read. rewrite E.
  by destruct (Map.delete _ _).
Qed.

Lemma legacy_step_tracks o this X :
  op_Buffer R o ->
  tracks (Legacy.map this) X ->
  (legacy_step R o this).1 = Normal tt /\
  tracks (Legacy.map (legacy_step R o this).2) (live_step R X o).
Proof.
  intros Ho Hp. destruct o as [k v|k|]; simpl in *.
  - destruct Ho as [Hb [bs Hk]]. rewrite Hk. simpl.
    rewrite (legacy_set_run _ _ _ _ (legacy_toKey_content _ _ Hb Hk)). simpl.
    split; [done | by apply tracks_set].
  - destruct Ho as [Hb [bs Hk]]. rewrite Hk. simpl. unfold bind.
    rewrite (legacy_delete_run _ _ _ (legacy_toKey_content _ _ Hb Hk)). simpl.
    split; [done | by apply tracks_delete].
  - split; [done | apply tracks_empty].
Qed.

Lemma legacy_run_tracks ops this X :
  Forall (op_Buffer R) ops ->
  tracks (Legacy.map this) X ->
  (for_of ops (legacy_step R) this).1 = Normal tt /\
  tracks (Legacy.map (for_of ops (legacy_step R) this).2) (foldl (live_step R) X ops).
Proof.
  intros Ho. revert this X. induction Ho as [|o ops Ho _ IH]; intros this X Hp; simpl.
  - done.
  - destruct (legacy_step_tracks o this X Ho Hp) as [Hr Ht]. unfold bind.
    destruct (legacy_step R o this) as [[[]|e] this']; [|discriminate]. by apply IH.
Qed.

End LegacyFacts.

(** X16. In the earlier BufferMap, which rebuilds its keys from the
    canonical strings, nothing is lost on the way: after [set(a, v)] with
    a Buffer [a], [get] and [has] through any Buffer with the same bytes
    find [v], and [entries()] and [keys()] yield a Buffer holding exactly
    the bytes of [a]. *)
Theorem legacy_round_trip R (m : Legacy.t) (a b v : jsval) (bs : list byte) :
  is_Some (as_Buffer R a) ->
  is_Some (as_Buffer R b) ->
  content R a = Some bs ->
  content R b = Some bs ->
  let m' := (Legacy.set R a v m).2 in
  (Legacy.set R a v m).1 = Normal tt /\
  Legacy.get R b m' = (Normal v, m') /\
  Legacy.has R b m' = (Normal true, m') /\
  (bs, v) ∈ Legacy.entries m' /\
  bs ∈ Legacy.keys m'.
Proof.
  intros Ba Bb Ha Hb.
  pose proof (legacy_toKey_content R _ _ Ba Ha) as Ea.
  pose proof (legacy_toKey_content R _ _ Bb Hb) as Eb.
  rewrite (legacy_set_run _ _ _ _ _ Ea). simpl.
  rewrite (legacy_get_run _ _ _ _ Eb), (legacy_has_run _ _ _ _ Eb). simpl.
  rewrite Map_get_set, Map_has_set. simpl.
  assert ((latin1 bs, v) ∈ Map.set (Legacy.map m) (latin1 bs) v) as Hin
      by apply Map_get_Some_elem, Map_get_set.
  repeat split.
  - unfold Legacy.entries. simpl. apply list_elem_of_fmap.
    exists (latin1 bs, v). simpl. by rewrite Buffer_from_binary_latin1.
  - unfold Legacy.keys, Map.keys. simpl. rewrite <- list_fmap_compose.
    apply list_elem_of_fmap. exists (latin1 bs, v). simpl.
    by rewrite Buffer_from_binary_latin1.
Qed.

Lemma legacy_round_trip_witness :
  let m' := (Legacy.set demo (VObject 1) (VNumber 7) (Legacy.mk Map.empty)).2 in
  Legacy.get demo (VObject 1) m' = (Normal (VNumber 7), m') /\
  Legacy.keys m' = [[x02; x03; x04]].
Proof.
  intros m'.
  assert (is_Some (as_Buffer demo (VObject 1))) as Hb by (by eexists).
  pose proof (legacy_round_trip demo (Legacy.mk Map.empty) (VObject 1) (VObject 1)
                (VNumber 7) [x02; x03; x04] Hb Hb eq_refl eq_refl) as (_ & Hg & _).
  split; [exact Hg | reflexivity].
Defined.

(** X17. After any history of [set], [delete] and [clear] with Buffer keys
    on a new earlier-version BufferMap, every operation has succeeded and
    [keys()] yields, each exactly once, the byte sequences inserted and
    not since deleted; [size] is their number. *)
Theorem legacy_keys_are_live R (ops : list op) :
  Forall (op_Buffer R) ops ->
  let r := for_of ops (legacy_step R) (Legacy.mk Map.empty) in
  r.1 = Normal tt /\
  Legacy.keys r.2 ≡ₚ elements (live R ops) /\
  NoDup (Legacy.keys r.2) /\
  (forall bs, bs ∈ Legacy.keys r.2 <-> bs ∈ live R ops) /\
  Legacy.size r.2 = size (live R ops).
Proof.
  intros Ho. simpl.
  destruct (legacy_run_tracks R ops (Legacy.mk Map.empty) ∅ Ho tracks_empty) as [Hr Ht].
  fold (live R ops) in Ht.
  assert (Legacy.keys (for_of ops (legacy_step R) (Legacy.mk Map.empty)).2
          ≡ₚ elements (live R ops)) as Hp.
  { unfold Legacy.keys. unfold tracks in Ht. rewrite Ht, <- list_fmap_compose.
    rewrite <- (list_fmap_id (elements (live R ops))) at 2.
    erewrite list_fmap_ext; [reflexivity|]. intros i bs _. simpl.
    apply Buffer_from_binary_latin1. }
  repeat apply conj; auto.
  - rewrite Hp. apply NoDup_elements.
  - intros bs. rewrite Hp. apply elem_of_elements.
  - by apply tracks_size.
Qed.

Lemma legacy_keys_are_live_witness :
  Legacy.keys
    (for_of [Insert (VObject 8) VNull; Insert (VObject 1) VNull; Delete (VObject 8)]
       (legacy_step demo) (Legacy.mk Map.empty)).2
  ≡ₚ [[x02; x03; x04]].
Proof.
  destruct (legacy_keys_are_live demo
              [Insert (VObject 8) VNull; Insert (VObject 1) VNull; Delete (VObject 8)])
    as (_ & Hp & _).
  - repeat constructor; by eexists.
  - rewrite Hp. by vm_compute.
Defined.

(** X18. The earlier BufferMap accepts Buffers only: for a key that is not
    a Buffer, [get], [has], [set] and [delete] all throw the TypeError and
    leave the map as it was. That includes ArrayBuffers and other views,
    which the current BufferMap accepts. *)
Theorem legacy_rejects_non_Buffer R (key v : jsval) (m : Legacy.t) (cur : BufferMap.t) :
  as_Buffer R key = None ->
  let e := TypeError "Non-buffer passed to buffer map/set." in
  Legacy.get R key m = (Throw e, m) /\
  Legacy.has R key m = (Throw e, m) /\
  Legacy.set R key v m = (Throw e, m) /\
  Legacy.delete R key m = (Throw e, m) /\
  (forall bs, content R key = Some bs -> (BufferMap.set R key v cur).1 = Normal tt).
Proof.
  intros Hb. simpl.
  unfold Legacy.get, Legacy.has, Legacy.set, Legacy.delete, bind, lift, Legacy.toKey.
  rewrite Hb. repeat split.
  intros bs Hc%toBinary_content. by rewrite (map_set_run _ _ _ _ _ Hc).
Qed.

Lemma legacy_rejects_non_Buffer_witness :
  Legacy.set demo (VObject 2) VNull (Legacy.mk Map.empty)
  = (Throw (TypeError "Non-buffer passed to buffer map/set."), Legacy.mk Map.empty) /\
  (BufferMap.set demo (VObject 2) VNull (BufferMap.mk Map.empty)).1 = Normal tt.
Proof.
  pose proof (legacy_rejects_non_Buffer demo (VObject 2) VNull (Legacy.mk Map.empty)
                (BufferMap.mk Map.empty) eq_refl) as (_ & _ & Hs & _ & Hc).
  split; [exact Hs | exact (Hc [x02; x03; x04] eq_refl)].
Defined.

(** ** What every reachable container satisfies *)

Lemma NoDup_fst_lookup {A B} (l : list (A * B)) i j x y y' :
  NoDup l.*1 -> l !! i = Some (x, y) -> l !! j = Some (x, y') -> i = j.
Proof.
  intros Hd Hi Hj. apply (NoDup_lookup _ i j x Hd).
  - by rewrite list_lookup_fmap, Hi.
  - by rewrite list_lookup_fmap, Hj.
Qed.

(** X19. Whatever history of [set]/[add], [delete] and [clear] a new
    BufferMap or BufferSet has been through, with whatever keys and up to
    an operation that threw, it never holds two entries for one content:
    no two positions of [keys()] yield keys with the same canonical key,
    and every key it yields is one the normaliser accepts. *)
Theorem no_duplicate_contents R (ops : list op) :
  let m := (for_of ops (map_step R) (BufferMap.mk Map.empty)).2 in
  let s := (for_of ops (set_step R) (BufferSet.mk Map.empty)).2 in
  (forall i j k k',
     BufferMap.keys m !! i = Some k -> BufferMap.keys m !! j = Some k' ->
     toBinary R k = toBinary R k' -> i = j) /\
  (forall k, k ∈ BufferMap.keys m -> exists c, toBinary R k = Normal c) /\
  (forall i j k k',
     BufferSet.keys s !! i = Some k -> BufferSet.keys s !! j = Some k' ->
     toBinary R k = toBinary R k' -> i = j) /\
  (forall k, k ∈ BufferSet.keys s -> exists c, toBinary R k = Normal c).
Proof.
  simpl. pose proof (map_wf_reachable R ops) as Hm. pose proof (set_wf_reachable R ops) as Hs.
  set (m := (for_of ops (map_step R) (BufferMap.mk Map.empty)).2) in *.
  set (s := (for_of ops (set_step R) (BufferSet.mk Map.empty)).2) in *.
  repeat apply conj.
  - intros i j k k' Hi Hj E. unfold BufferMap.keys, Map.values in Hi, Hj.
    apply list_lookup_fmap_Some_1 in Hi as (item & -> & Hi).
    apply list_lookup_fmap_Some_1 in Hi as ([c it] & -> & Hi).
    apply list_lookup_fmap_Some_1 in Hj as (item' & -> & Hj).
    apply list_lookup_fmap_Some_1 in Hj as ([c' it'] & -> & Hj). simpl in *.
    pose proof (map_wf_entry_key R _ _ _ Hm (list_elem_of_lookup_2 _ _ _ Hi)) as E1.
    pose proof (map_wf_entry_key R _ _ _ Hm (list_elem_of_lookup_2 _ _ _ Hj)) as E2.
    rewrite E, E2 in E1. injection E1 as ->.
    exact (NoDup_fst_lookup _ _ _ _ _ _ (proj1 Hm) Hi Hj).
  - intros k Hin. unfold BufferMap.keys, Map.values in Hin.
    apply list_elem_of_fmap in Hin as (item & -> & Hin).
    apply list_elem_of_fmap in Hin as ([c it] & -> & Hin). simpl.
    exists c. exact (map_wf_entry_key R _ _ _ Hm Hin).
  - intros i j k k' Hi Hj E. unfold BufferSet.keys, Map.values in Hi, Hj.
    apply list_lookup_fmap_Some_1 in Hi as ([c k0] & -> & Hi).
    apply list_lookup_fmap_Some_1 in Hj as ([c' k1] & -> & Hj). simpl in *.
    pose proof (set_wf_entry_key R _ _ _ Hs (list_elem_of_lookup_2 _ _ _ Hi)) as E1.
    pose proof (set_wf_entry_key R _ _ _ Hs (list_elem_of_lookup_2 _ _ _ Hj)) as E2.
    rewrite E, E2 in E1. injection E1 as ->.
    exact (NoDup_fst_lookup _ _ _ _ _ _ (proj1 Hs) Hi Hj).
  - intros k Hin. unfold BufferSet.keys, Map.values in Hin.
    apply list_elem_of_fmap in Hin as ([c k0] & -> & Hin). simpl.
    exists c. exact (set_wf_entry_key R _ _ _ Hs Hin).
Qed.
